(** * Type erasure with value semantics: the [Shape] wrapper

    A shallow embedding of [Shape.h], [Circle.h], [Square.h] and [main.cpp].

    A [Shape] object owns, through [std::unique_ptr<ShapeConcept> pimpl], one
    heap-allocated [ShapeModel<T>].  The embedding keeps that indirection: Shape
    objects live in a store indexed by their address, holders live in a heap
    indexed by the address [operator new] returned, and every member function
    is a computation over both.  Dereferencing a null [pimpl] has no defined
    behaviour in C++; the computation then ends in [Undefined]. *)

From Stdlib Require Import Ascii String DecimalString PrimFloat FloatOps SpecFloat.
From stdpp Require Import gmap strings list fin_maps.

Local Open Scope string_scope.

(** ** Output streams *)

(** The characters written to [std::cout] so far. *)
Definition ostream : Type := string.

(** [operator<<(double)] belongs to the C++ library, not to this repository:
    the text it produces for a [double] is a parameter of the development. *)
Class NumPut := put_double : float → string.

(** [os << "text"] *)
Definition put_string (os : ostream) (s : string) : ostream := os ++ s.

(** The line feed character, as a string. *)
Definition newline : string := String "010"%char EmptyString.

(** [os << std::endl]: a line feed (the flush is not observable here). *)
Definition endl (os : ostream) : ostream := os ++ newline.

(** ** The concrete value types *)

(** [Circle.h] *)
Record Circle := Circle_ctor { getRadius : float }.

(** [Square.h] *)
Record Square := Square_ctor { getSide : float }.

(** [main.cpp]: [class Triangle {};] *)
Inductive Triangle : Set := Triangle_ctor.

(** ** The capability: an overload of [drawShape] visible for [T] *)

Class Drawable (T : Type) := drawShape : T → ostream → ostream.

Section Capabilities.
Context `{NumPut}.

#[export] Instance drawShape_Circle : Drawable Circle := λ circle os,
  endl (put_string (put_string os "Circle: ") (put_double (getRadius circle))).

#[export] Instance drawShape_Square : Drawable Square := λ square os,
  endl (put_string (put_string os "Square: ") (put_double (getSide square))).

#[export] Instance drawShape_Triangle : Drawable Triangle := λ _ os,
  endl (put_string os "Δ").
End Capabilities.

(** ** Holders *)

(** [ShapeConcept] is the abstract interface; its only implementations are the
    instantiations of [ShapeModel<T>], which pair the held [object] with the
    [drawShape] overload resolved for [T] where the template is instantiated. *)
Record ShapeConcept := ShapeModel {
  T : Type;
  T_drawShape : Drawable T;
  object : T;
}.
Arguments ShapeModel {T T_drawShape} object.

(** [void ShapeModel<T>::draw() const override { drawShape(object); }] *)
Definition ShapeModel_draw (m : ShapeConcept) : ostream → ostream :=
  @drawShape (T m) (T_drawShape m) (object m).

(** ** Program state *)

(** [std::unique_ptr<ShapeConcept>]: null, or the address of the holder. *)
Abbreviation unique_ptr := (option positive).

(** [class Shape]: its single data member. *)
Record Shape := mkShape { pimpl : unique_ptr }.

(** Which special member function of the held type [T] initialised an
    [object] member.  The log is ghost state: it lets copies and moves of the
    held value be told apart although both leave equal values behind. *)
Inductive special := copy_constructed | move_constructed.

Record state := State {
  objects : gmap positive Shape;      (* live Shape objects, by address *)
  heap : gmap positive ShapeConcept;  (* holders obtained from make_unique *)
  cout : ostream;
  specials : list special;
}.

Definition with_objects (f : gmap positive Shape → gmap positive Shape) (σ : state) :=
  State (f (objects σ)) (heap σ) (cout σ) (specials σ).
Definition with_heap (f : gmap positive ShapeConcept → gmap positive ShapeConcept) (σ : state) :=
  State (objects σ) (f (heap σ)) (cout σ) (specials σ).
Definition with_cout (f : ostream → ostream) (σ : state) :=
  State (objects σ) (heap σ) (f (cout σ)) (specials σ).
Definition with_specials (f : list special → list special) (σ : state) :=
  State (objects σ) (heap σ) (cout σ) (f (specials σ)).

(** ** Computations: state passing, with undefined behaviour as an outcome *)

Inductive outcome (A : Type) :=
  | Done (a : A) (σ : state)
  | Undefined.
Arguments Done {A} a σ.
Arguments Undefined {A}.

Definition M (A : Type) : Type := state → outcome A.

Definition ret {A} (a : A) : M A := λ σ, Done a σ.

Definition bind {A B} (m : M A) (k : A → M B) : M B := λ σ,
  match m σ with
  | Done a σ' => k a σ'
  | Undefined => Undefined
  end.

Declare Scope cpp_scope.
Delimit Scope cpp_scope with cpp.
Notation "x <- m ;; k" := (bind m (λ x, k))
  (at level 100, m at next level, right associativity) : cpp_scope.
Notation "m ;; k" := (bind m (λ _, k))
  (at level 100, right associativity) : cpp_scope.
Local Open Scope cpp_scope.

(** The state a computation ends in, when it ends. *)
Definition final {A} (r : outcome A) : option state :=
  match r with Done _ σ => Some σ | Undefined => None end.

(** *** Primitive steps *)

(** Read the [pimpl] member of the Shape at [s].  A reference always names a
    live object; a dangling one is undefined. *)
Definition get_pimpl (s : positive) : M unique_ptr := λ σ,
  match objects σ !! s with
  | Some sh => Done (pimpl sh) σ
  | None => Undefined
  end.

(** Store into the [pimpl] member of the Shape at [this]. *)
Definition set_pimpl (this : positive) (p : unique_ptr) : M unit := λ σ,
  Done tt (with_objects <[this := mkShape p]> σ).

(** [p->]: an unchecked dereference. *)
Definition deref (p : unique_ptr) : M ShapeConcept := λ σ,
  match p with
  | Some l =>
      match heap σ !! l with
      | Some m => Done m σ
      | None => Undefined
      end
  | None => Undefined
  end.

(** [new ShapeModel<T>(...)]: storage distinct from every live holder. *)
Definition new (m : ShapeConcept) : M positive := λ σ,
  let l := fresh (dom (heap σ)) in
  Done l (with_heap <[l := m]> σ).

(** [delete l] *)
Definition delete_holder (l : positive) : M unit := λ σ,
  match heap σ !! l with
  | Some _ => Done tt (with_heap (delete l) σ)
  | None => Undefined
  end.

(** Run a stream insertion on [std::cout]. *)
Definition on_cout (f : ostream → ostream) : M unit := λ σ,
  Done tt (with_cout f σ).

(** Append to the ghost log. *)
Definition log (e : special) : M unit := λ σ,
  Done tt (with_specials (λ es, app es [e]) σ).

(** ** [ShapeModel<T>] *)

(** The category of an argument expression of type [T], as far as overload
    resolution between [T&&] and [T const&] can tell. *)
Inductive category := rvalue | const_lvalue.

(** The two converting constructors.
    [ShapeModel(T &&value) : object{std::forward<T>(value)}] move-constructs
    [object]; [ShapeModel(T const &value) : object{value}] copy-constructs it.
    The values of the types at hand are plain data, so either way [object]
    ends up equal to [value]. *)
Definition ShapeModel_ctor {T} `{Drawable T} (c : category) (value : T) : M ShapeConcept :=
  match c with
  | rvalue => log move_constructed ;; ret (ShapeModel value)
  | const_lvalue => log copy_constructed ;; ret (ShapeModel value)
  end.

(** The implicitly declared copy constructor [ShapeModel(ShapeModel const&)]:
    base and vtable of the same instantiation, [object] copy-constructed. *)
Definition ShapeModel_copy_ctor (m : ShapeConcept) : M ShapeConcept :=
  log copy_constructed ;;
  ret (@ShapeModel (T m) (T_drawShape m) (object m)).

(** [std::make_unique<ShapeModel<T>>(x)] *)
Definition make_unique {T} `{Drawable T} (c : category) (x : T) : M unique_ptr :=
  m <- ShapeModel_ctor c x ;;
  l <- new m ;;
  ret (Some l).

(** [clone() const override]: [std::make_unique<ShapeModel>] applied to the
    holder itself, which selects the copy constructor above. *)
Definition ShapeModel_clone (m : ShapeConcept) : M unique_ptr :=
  m' <- ShapeModel_copy_ctor m ;;
  l <- new m' ;;
  ret (Some l).

(** ** [std::unique_ptr] members used by [Shape] *)

(** [release()]: give the pointer up, leaving null behind. *)
Definition release (s : positive) : M unique_ptr :=
  p <- get_pimpl s ;;
  set_pimpl s None ;;
  ret p.

(** [reset(p)]: store [p], then delete what was held before. *)
Definition reset (this : positive) (p : unique_ptr) : M unit :=
  old <- get_pimpl this ;;
  set_pimpl this p ;;
  match old with
  | Some l => delete_holder l
  | None => ret tt
  end.

(** ** [class Shape] *)

(** A parameter declared [T const &x] binds to lvalues and rvalues alike;
    inside the function the name [x] is a const lvalue. *)
Definition as_const_ref (caller : category) : category := const_lvalue.

(** [template <typename T> Shape(T const &x)
      : pimpl{std::make_unique<ShapeModel<T>>(x)} {}] *)
Definition Shape_ctor {T} `{Drawable T} (this : positive) (caller : category) (x : T) : M unit :=
  p <- make_unique (as_const_ref caller) x ;;
  set_pimpl this p.

(** [friend void draw(Shape const &shape) { shape.pimpl->draw(); }] *)
Definition draw (shape : positive) : M unit :=
  p <- get_pimpl shape ;;
  m <- deref p ;;
  on_cout (ShapeModel_draw m).

(** [s.pimpl->clone()]: the holder duplicates itself and hands back an owning
    pointer to the duplicate. *)
Definition pimpl_clone (s : positive) : M unique_ptr :=
  p <- get_pimpl s ;;
  m <- deref p ;;
  ShapeModel_clone m.

(** [Shape(Shape const &s) : pimpl{s.pimpl->clone()}
    { std::cout << "copy ctor" << std::endl; }] *)
Definition Shape_copy_ctor (this s : positive) : M unit :=
  c <- pimpl_clone s ;;
  set_pimpl this c ;;
  on_cout (λ os, endl (put_string os "copy ctor")).

(** [Shape &operator=(Shape const &s)
    { pimpl = s.pimpl->clone(); std::cout << "copy assign" << std::endl; return *this; }]
    The right-hand side is evaluated first; the move assignment of
    [unique_ptr] from the temporary is [reset(temporary.release())]. *)
Definition Shape_copy_assign (this s : positive) : M unit :=
  c <- pimpl_clone s ;;
  reset this c ;;
  on_cout (λ os, endl (put_string os "copy assign")).

(** [Shape(Shape &&s) = default;]: [pimpl] is initialised by the move
    constructor of [unique_ptr], that is from [s.pimpl.release()]. *)
Definition Shape_move_ctor (this s : positive) : M unit :=
  p <- release s ;;
  set_pimpl this p.

(** [Shape &operator=(Shape &&s) = default;]: memberwise,
    [pimpl.reset(s.pimpl.release())]. *)
Definition Shape_move_assign (this s : positive) : M unit :=
  p <- release s ;;
  reset this p.

(** The implicit destructor: [~unique_ptr] deletes a non-null pointer, and the
    object's lifetime ends. *)
Definition Shape_dtor (this : positive) : M unit :=
  p <- get_pimpl this ;;
  match p with
  | Some l => delete_holder l
  | None => ret tt
  end ;;
  λ σ, Done tt (with_objects (delete this) σ).

(** ** [main.cpp] *)

(** *** [std::vector<Shape>] *)

(** A vector: the addresses of its elements, in order, and the number of
    elements its storage has room for. *)
Record vector := Vector { elements : list positive; capacity : nat }.

(** The capacity a vector asks for when an element is added to full storage
    holding [n] elements is the library's choice (at least [n + 1]). *)
Class Growth := next_capacity : nat → nat.

(** Storage for one more Shape, occupied by no live Shape. *)
Definition storage : M positive := λ σ, Done (fresh (dom (objects σ))) σ.

(** An element moves to new storage: [Shape]'s move constructor is
    [noexcept] (it is defaulted, and that of [unique_ptr] is), so the vector
    move-constructs the element there and destroys the one left behind. *)
Definition relocate (shape : positive) : M positive :=
  there <- storage ;;
  Shape_move_ctor there shape ;;
  Shape_dtor shape ;;
  ret there.

(** Every element moves, first to last. *)
Fixpoint relocate_all (shapes : list positive) : M (list positive) :=
  match shapes with
  | [] => ret []
  | shape :: rest =>
      there <- relocate shape ;;
      rest' <- relocate_all rest ;;
      ret (there :: rest')
  end.

(** [shapes.emplace_back(x)]: the new element is constructed in place from
    the argument, a temporary of type [T]; when the storage is full the
    element is constructed in new storage and the others are relocated. *)
Definition emplace_back `{Growth} {T} `{Drawable T} (shapes : vector) (x : T) : M vector :=
  let n := length (elements shapes) in
  if (n <? capacity shapes)%nat then
    this <- storage ;;
    Shape_ctor this rvalue x ;;
    ret (Vector (app (elements shapes) [this]) (capacity shapes))
  else
    this <- storage ;;
    Shape_ctor this rvalue x ;;
    moved <- relocate_all (elements shapes) ;;
    ret (Vector (app moved [this]) (Nat.max (S n) (next_capacity n))).

(** A range-based [for] over Shapes. *)
Fixpoint for_each (body : positive → M unit) (shapes : list positive) : M unit :=
  match shapes with
  | [] => ret tt
  | shape :: rest => body shape ;; for_each body rest
  end.

(** [for (auto const &shape : shapes) { draw(shape); }] *)
Definition drawAllShaped (shapes : vector) : M unit :=
  for_each draw (elements shapes).

(** [~vector()]: every element is destroyed. *)
Definition vector_dtor (shapes : vector) : M unit :=
  for_each Shape_dtor (elements shapes).

(** The automatic variables of [main]. *)
Definition square : positive := 1.
Definition circle : positive := 2.
Definition another_circle : positive := 3.

Section Main.
Context `{NumPut} `{Growth}.

(** Lines 33 to 37: up to and including [circle = square;]. *)
Definition main_until_assign : M unit :=
  Shape_ctor square rvalue (Square_ctor 230) ;;
  Shape_ctor circle rvalue (Circle_ctor 230) ;;
  draw circle ;;
  Shape_copy_ctor another_circle circle ;;
  Shape_copy_assign circle square.

(** Lines 39 to 41. *)
Definition main_draws : M unit :=
  draw circle ;;
  draw square ;;
  draw another_circle.

(** Lines 44 to 48, for any three values: an empty vector, then one
    [emplace_back] each for a circle, a square and a triangle. *)
Definition make_shapes (c : Circle) (s : Square) (t : Triangle) : M vector :=
  shapes <- ret (Vector [] 0) ;;
  shapes <- emplace_back shapes c ;;
  shapes <- emplace_back shapes s ;;
  emplace_back shapes t.

(** Lines 44 to 50; the vector is handed on to the end of the block. *)
Definition main_collection : M vector :=
  shapes <- make_shapes (Circle_ctor 2) (Square_ctor 2) Triangle_ctor ;;
  drawAllShaped shapes ;;
  ret shapes.

(** The closing brace: the automatic objects are destroyed in reverse order
    of declaration, the vector first, which destroys its elements. *)
Definition main_exit (shapes : vector) : M unit :=
  vector_dtor shapes ;;
  Shape_dtor another_circle ;;
  Shape_dtor circle ;;
  Shape_dtor square.

Definition main : M unit :=
  main_until_assign ;;
  main_draws ;;
  shapes <- main_collection ;;
  main_exit shapes.
End Main.

(** Program start: no object, no holder, nothing printed. *)
Definition start : state := State ∅ ∅ "" [].

(** ** A reference [NumPut]: the [%g] conversion at precision 6

    [std::ostream] in its default state formats a [double] as [printf] does
    with [%.6g] in the C locale.  The definition below follows the C
    standard's description of that conversion, rounding the exact binary value
    to nearest, ties to even.  Rocq's floats have a single NaN, printed
    without sign. *)

(** The decimal digits of a non-negative integer. *)
Definition digits_of (n : Z) : string :=
  NilZero.string_of_uint (N.to_uint (Z.to_N n)).

(** [⌊log10 (num / den)⌋] for positive [num] and [den]. *)
Definition floor_log10 (num den : Z) : Z :=
  let k := (Z.of_nat (String.length (digits_of num)) - Z.of_nat (String.length (digits_of den)))%Z in
  let ge := if (0 <=? k)%Z then (den * 10 ^ k <=? num)%Z else (den <=? num * 10 ^ (- k))%Z in
  if ge then k else (k - 1)%Z.

(** [num / den], rounded to the nearest integer, ties to even. *)
Definition round_half_even (num den : Z) : Z :=
  let q := (num / den)%Z in
  let r := (num mod den)%Z in
  match (2 * r ?= den)%Z with
  | Lt => q
  | Gt => (q + 1)%Z
  | Eq => if Z.even q then q else (q + 1)%Z
  end.

(** [num / den * 10 ^ (- k)], rounded. *)
Definition scaled (num den k : Z) : Z :=
  if (0 <=? k)%Z then round_half_even num (den * 10 ^ k)
  else round_half_even (num * 10 ^ (- k)) den.

(** Drop the leading zeros of a reversed digit sequence. *)
Fixpoint strip_zeros_rev (s : list ascii) : list ascii :=
  match s with
  | c :: rest => if Ascii.eqb c "0" then strip_zeros_rev rest else s
  | [] => []
  end.

(** Remove trailing zeros of a fractional part; the point goes with them
    when nothing is left. *)
Definition fraction (digits : string) : string :=
  match rev (strip_zeros_rev (rev (list_ascii_of_string digits))) with
  | [] => ""
  | ds => "." ++ string_of_list_ascii ds
  end.

(** [n] zeros. *)
Definition zeros (n : Z) : string :=
  string_of_list_ascii (repeat "0"%char (Z.to_nat n)).

(** The exponent of the [e] style: a sign and at least two digits. *)
Definition exponent_part (x : Z) : string :=
  let ds := digits_of (Z.abs x) in
  (if (x <? 0)%Z then "e-" else "e+") ++
  (if (Z.abs x <? 10)%Z then "0" else "") ++ ds.

(** [%.6g] of the positive rational [num / den]: six significant digits
    [d] and the decimal exponent [x] of the rounded value; style [f] when
    [-4 <= x < 6], style [e] otherwise; trailing zeros removed. *)
Definition format_g (num den : Z) : string :=
  let P := 6%Z in
  let x0 := floor_log10 num den in
  let d0 := scaled num den (x0 - P + 1) in
  let '(x, d) := if (d0 =? 10 ^ P)%Z then ((x0 + 1)%Z, (10 ^ (P - 1))%Z) else (x0, d0) in
  let ds := digits_of d in
  if ((-4 <=? x) && (x <? P))%Z then
    if (0 <=? x)%Z then
      substring 0 (Z.to_nat (x + 1)) ds
        ++ fraction (substring (Z.to_nat (x + 1)) (Z.to_nat (P - 1 - x)) ds)
    else "0" ++ fraction (zeros (- x - 1) ++ ds)
  else
    substring 0 1 ds ++ fraction (substring 1 (Z.to_nat (P - 1)) ds) ++ exponent_part x.

(** [operator<<(double)] with the stream's defaults. *)
Definition printf_g : NumPut := λ d,
  match Prim2SF d with
  | S754_zero s => if s then "-0" else "0"
  | S754_infinity s => if s then "-inf" else "inf"
  | S754_nan => "nan"
  | S754_finite s m e =>
      (if s then "-" else "") ++
      (if (0 <=? e)%Z then format_g (Z.pos m * 2 ^ e) 1
       else format_g (Z.pos m) (2 ^ (- e)))
  end.

(** ** A reference [Growth]: doubling, as libstdc++ and libc++ do *)

Definition doubling : Growth := λ n, 2 * n.

(** ** Ownership *)

(** The Shape at [a] holds a value: its [pimpl] is the address [l] of the
    live holder [m]. *)
Definition holds (σ : state) (a l : positive) (m : ShapeConcept) : Prop :=
  objects σ !! a = Some (mkShape (Some l)) ∧ heap σ !! l = Some m.

(** The same, with address and holder paired: the form in which the
    elements of a vector are listed next to what they hold. *)
Definition held (σ : state) (a : positive) (lm : positive * ShapeConcept) : Prop :=
  holds σ a lm.1 lm.2.

(** The Shape at [a] is moved-from. *)
Definition moved_from (σ : state) (a : positive) : Prop :=
  objects σ !! a = Some (mkShape None).

(** Exclusive ownership: a non-null [pimpl] points to a live holder, and no
    two Shape objects point to the same one. *)
Record wf (σ : state) : Prop := {
  wf_live : ∀ a l, objects σ !! a = Some (mkShape (Some l)) → is_Some (heap σ !! l);
  wf_unique : ∀ a b l,
    objects σ !! a = Some (mkShape (Some l)) →
    objects σ !! b = Some (mkShape (Some l)) → a = b;
}.

(** The public operations of [Shape], as calls a client can make.  [wrap]
    carries the value together with its type and the overload of
    [drawShape] resolved at the call site. *)
Inductive call :=
  | wrap (this : positive) (c : category) (m : ShapeConcept)
  | copy_construct (this s : positive)
  | copy_assign (this s : positive)
  | move_construct (this s : positive)
  | move_assign (this s : positive)
  | render (shape : positive)
  | destroy (this : positive).

(** What a call runs. *)
Definition exec (c : call) : M unit :=
  match c with
  | wrap this c m => @Shape_ctor (T m) (T_drawShape m) this c (object m)
  | copy_construct this s => Shape_copy_ctor this s
  | copy_assign this s => Shape_copy_assign this s
  | move_construct this s => Shape_move_ctor this s
  | move_assign this s => Shape_move_assign this s
  | render shape => draw shape
  | destroy this => Shape_dtor this
  end.

(** The Shape objects a call may modify: its target and, for a move, its
    source.  The sources of copies and the argument of [draw] are [const]. *)
Definition written (c : call) : list positive :=
  match c with
  | wrap this _ _ => [this]
  | copy_construct this _ => [this]
  | copy_assign this _ => [this]
  | move_construct this s => [this; s]
  | move_assign this s => [this; s]
  | render _ => []
  | destroy this => [this]
  end.

(** Calls made one after the other. *)
Fixpoint run (cs : list call) : M unit :=
  match cs with
  | [] => ret tt
  | c :: rest => exec c ;; run rest
  end.

(** [draw] called [n] times in a row on the same Shape. *)
Fixpoint draws (n : nat) (shape : positive) : M unit :=
  match n with
  | O => ret tt
  | S n' => draw shape ;; draws n' shape
  end.

(** The text a [drawShape] overload writes, on its own. *)
Definition rendered {T} `{Drawable T} (v : T) : string := drawShape v "".

(** The heap once [reset] or a destructor has deleted the holder that was
    owned ([old] null: nothing to delete). *)
Definition released (old : unique_ptr) (h : gmap positive ShapeConcept) :=
  match old with
  | Some lo => delete lo h
  | None => h
  end.

(** ** Sample states

    States and holders of [main], with the reference [NumPut]. *)
(** The state a sequence of calls made at program start ends in. *)
Definition after (cs : list call) : state :=
  match run cs start with
  | Done _ σ => σ
  | Undefined => start
  end.

(** The holders of [Square(230)] and [Circle{230}]. *)
Definition square_230 : ShapeConcept :=
  @ShapeModel Square (@drawShape_Square printf_g) (Square_ctor 230).
Definition circle_230 : ShapeConcept :=
  @ShapeModel Circle (@drawShape_Circle printf_g) (Circle_ctor 230).

(** Lines 33 and 34 of [main.cpp]. *)
Definition two_wraps : list call :=
  [wrap square rvalue square_230; wrap circle rvalue circle_230].

(** ** Raw storage, leaks and the count of copies *)

(** A constructor is given raw storage: the target of a construction is not
    a live Shape.  Assignments, [draw] and the destructor name live objects,
    which their own lookups check. *)
Definition proper (σ : state) (c : call) : Prop :=
  match c with
  | wrap this _ _ => objects σ !! this = None
  | copy_construct this _ => objects σ !! this = None
  | move_construct this _ => objects σ !! this = None
  | _ => True
  end.

(** Every call of a sequence is proper in the state it is made in. *)
Fixpoint proper_run (σ : state) (cs : list call) : Prop :=
  match cs with
  | [] => True
  | c :: rest =>
      proper σ c ∧
      match exec c σ with
      | Done _ σ' => proper_run σ' rest
      | Undefined => True
      end
  end.

(** No holder without an owner. *)
Definition no_leak (σ : state) : Prop :=
  ∀ l, is_Some (heap σ !! l) → ∃ a, objects σ !! a = Some (mkShape (Some l)).

(** How many times a call runs the copy constructor of a held type. *)
Definition copies (c : call) : nat :=
  match c with
  | wrap _ _ _ => 1
  | copy_construct _ _ => 1
  | copy_assign _ _ => 1
  | _ => 0
  end.

(** The state a computation ends in; program start when it is undefined. *)
Definition state_of {A} (r : outcome A) : state :=
  match r with
  | Done _ σ => σ
  | Undefined => start
  end.

(** Lines 33 and 34 of [main.cpp], then the circle Shape moved into a new
    Shape. *)
Definition moved_out : list call :=
  app two_wraps [move_construct another_circle circle].

(** Lines 33 to 37 of [main.cpp], then the three Shapes destroyed in
    reverse order of declaration. *)
Definition lifetimes : list call :=
  [wrap square rvalue square_230; wrap circle rvalue circle_230;
   render circle; copy_construct another_circle circle; copy_assign circle square;
   destroy another_circle; destroy circle; destroy square].

(** Lines 44 to 48 of [main.cpp] with a circle of radius 230 and a square
    of side 230, run at program start with the reference [NumPut] and
    [Growth]: the vector, the state, and what the elements hold. *)
Definition filled : outcome vector :=
  @make_shapes printf_g doubling (Circle_ctor 230) (Square_ctor 230) Triangle_ctor start.
Definition filled_vector : vector :=
  match filled with
  | Done v _ => v
  | Undefined => Vector [] 0
  end.
Definition filled_state : state := state_of filled.
Definition triangle_holder : ShapeConcept :=
  @ShapeModel Triangle drawShape_Triangle Triangle_ctor.
Definition filled_holders : list (positive * ShapeConcept) :=
  [(1%positive, circle_230); (2%positive, square_230); (3%positive, triangle_holder)].

(** The same state once the first element has been moved into a Shape
    outside the vector. *)
Definition emptied_state : state :=
  state_of (Shape_move_ctor 9 5 filled_state).

(** ** Proof automation *)

Ltac destruct_shapes :=
  repeat match goal with sh : Shape |- _ => destruct sh end.

(** Case analysis on the lookups a computation performs. *)
Ltac inv_exec H :=
  unfold Shape_ctor, Shape_copy_ctor, Shape_copy_assign, Shape_move_ctor,
    Shape_move_assign, Shape_dtor, draw, pimpl_clone, make_unique, ShapeModel_ctor,
    ShapeModel_clone, ShapeModel_copy_ctor, release, reset, delete_holder,
    new, log, on_cout, set_pimpl, get_pimpl, deref, bind, ret in H;
  cbn [objects heap cout specials with_objects with_heap with_cout
       with_specials pimpl] in H;
  repeat
    (first
       [ rewrite lookup_insert in H; case_decide; simplify_eq
       | match type of H with
         | context [match ?o !! ?a with _ => _ end] =>
             let E := fresh "E" in
             destruct (o !! a) as [?|] eqn:E; try discriminate H
         | context [match pimpl ?sh with _ => _ end] =>
             destruct sh as [[?|]]; try discriminate H
         | context [match ?p with Some _ => _ | None => _ end] =>
             is_var p; destruct p as [?|]; try discriminate H
         end ];
     cbn [objects heap cout specials with_objects with_heap with_cout
          with_specials pimpl] in H).

(** * Properties *)

Lemma ShapeModel_eta m : @ShapeModel (T m) (T_drawShape m) (object m) = m.
Proof. by destruct m. Qed.

Lemma fresh_heap (h : gmap positive ShapeConcept) : h !! fresh (dom h) = None.
Proof. apply not_elem_of_dom, is_fresh. Qed.

Lemma fresh_objects (o : gmap positive Shape) : o !! fresh (dom o) = None.
Proof. apply not_elem_of_dom, is_fresh. Qed.

Lemma fresh_heap_ne (h : gmap positive ShapeConcept) l :
  is_Some (h !! l) → l ≠ fresh (dom h).
Proof. intros [m Hm] ->. by rewrite fresh_heap in Hm. Qed.

(** ** What each member function computes *)

Section Equations.
Implicit Types (σ : state) (m : ShapeConcept) (p : unique_ptr).

Lemma Shape_ctor_eq {T} `{Drawable T} this c (x : T) σ :
  Shape_ctor this c x σ =
  Done tt (State (<[this := mkShape (Some (fresh (dom (heap σ))))]> (objects σ))
                 (<[fresh (dom (heap σ)) := ShapeModel x]> (heap σ))
                 (cout σ)
                 (app (specials σ) [copy_constructed])).
Proof. reflexivity. Qed.

Lemma draw_eq σ a l m :
  holds σ a l m → draw a σ = Done tt (with_cout (ShapeModel_draw m) σ).
Proof. intros [Ha Hl]. unfold draw, bind, get_pimpl, deref. rewrite Ha. simpl. by rewrite Hl. Qed.

Lemma draw_moved_from σ a : moved_from σ a → draw a σ = Undefined.
Proof. intros Ha. unfold draw, bind, get_pimpl, deref. by rewrite Ha. Qed.

Lemma Shape_copy_ctor_eq σ this s l m :
  holds σ s l m →
  Shape_copy_ctor this s σ =
  Done tt (State (<[this := mkShape (Some (fresh (dom (heap σ))))]> (objects σ))
                 (<[fresh (dom (heap σ)) := m]> (heap σ))
                 (endl (put_string (cout σ) "copy ctor"))
                 (app (specials σ) [copy_constructed])).
Proof.
  intros [Hs Hl]. unfold Shape_copy_ctor, pimpl_clone, bind, get_pimpl, deref.
  rewrite Hs. simpl. rewrite Hl. simpl. by rewrite ShapeModel_eta.
Qed.

Lemma Shape_copy_assign_eq σ this s l m old :
  holds σ s l m →
  objects σ !! this = Some (mkShape old) →
  (∀ lo, old = Some lo → is_Some (heap σ !! lo)) →
  Shape_copy_assign this s σ =
  Done tt (State (<[this := mkShape (Some (fresh (dom (heap σ))))]> (objects σ))
                 (released old (<[fresh (dom (heap σ)) := m]> (heap σ)))
                 (endl (put_string (cout σ) "copy assign"))
                 (app (specials σ) [copy_constructed])).
Proof.
  intros [Hs Hl] Hthis Hold.
  unfold Shape_copy_assign, pimpl_clone, reset, bind, get_pimpl, deref.
  rewrite Hs. simpl. rewrite Hl. simpl. rewrite Hthis. simpl. rewrite ShapeModel_eta.
  destruct old as [lo|]; [|done].
  destruct (Hold lo eq_refl) as [mo Hmo].
  unfold delete_holder. simpl.
  rewrite lookup_insert_ne by (apply not_eq_sym, fresh_heap_ne; eauto).
  by rewrite Hmo.
Qed.

Lemma Shape_move_ctor_eq σ this s p :
  objects σ !! s = Some (mkShape p) →
  Shape_move_ctor this s σ =
  Done tt (with_objects (λ o, <[this := mkShape p]> (<[s := mkShape None]> o)) σ).
Proof.
  intros Hs. unfold Shape_move_ctor, release, bind, get_pimpl. by rewrite Hs.
Qed.

Lemma Shape_move_assign_eq σ this s p old :
  this ≠ s →
  objects σ !! s = Some (mkShape p) →
  objects σ !! this = Some (mkShape old) →
  (∀ lo, old = Some lo → is_Some (heap σ !! lo)) →
  Shape_move_assign this s σ =
  Done tt (State (<[this := mkShape p]> (<[s := mkShape None]> (objects σ)))
                 (released old (heap σ)) (cout σ) (specials σ)).
Proof.
  intros Hne Hs Hthis Hold.
  unfold Shape_move_assign, release, reset, bind, get_pimpl.
  rewrite Hs. simpl. rewrite lookup_insert_ne by done. rewrite Hthis. simpl.
  destruct old as [lo|]; [|done].
  destruct (Hold lo eq_refl) as [mo Hmo].
  unfold delete_holder. simpl. by rewrite Hmo.
Qed.

(** Move assignment of a Shape to itself: [release] empties it, [reset]
    puts the pointer back and finds nothing to delete. *)
Lemma Shape_move_assign_self σ this p :
  objects σ !! this = Some (mkShape p) →
  Shape_move_assign this this σ =
  Done tt (with_objects (λ o, <[this := mkShape p]> (<[this := mkShape None]> o)) σ).
Proof.
  intros Hthis. unfold Shape_move_assign, release, reset, bind, get_pimpl.
  rewrite Hthis. simpl. by rewrite lookup_insert_eq.
Qed.
End Equations.

(** ** Exclusive ownership is preserved *)

Section Ownership.
Implicit Types (σ : state) (m : ShapeConcept) (p old : unique_ptr).

Lemma wf_start : wf start.
Proof. split; intros *; unfold start; simpl; by rewrite lookup_empty. Qed.

Lemma lookup_released old (h : gmap positive ShapeConcept) l :
  released old h !! l = if decide (old = Some l) then None else h !! l.
Proof.
  destruct old as [lo|]; simpl; [|done].
  rewrite lookup_delete. repeat case_decide; congruence.
Qed.

(** A holder fresh from [new] is given to [this]; what [this] owned before
    is deleted ([old] is null when [this] is just being constructed). *)
Lemma wf_new σ this m old os es :
  wf σ →
  old = None ∨ objects σ !! this = Some (mkShape old) →
  wf (State (<[this := mkShape (Some (fresh (dom (heap σ))))]> (objects σ))
            (released old (<[fresh (dom (heap σ)) := m]> (heap σ))) os es).
Proof.
  intros [Hlive Huniq] Hold.
  set (lf := fresh (dom (heap σ))).
  assert (Hfresh : ∀ a, objects σ !! a ≠ Some (mkShape (Some lf))).
  { intros a Ha. apply Hlive in Ha as [? Ha]. unfold lf in Ha.
    by rewrite fresh_heap in Ha. }
  split; cbn [objects heap].
  - intros a l. rewrite lookup_insert, lookup_released, lookup_insert.
    repeat case_decide; simplify_eq; eauto.
    + intros [= <-]. destruct Hold as [|Hold]; [done|]. by apply Hfresh in Hold.
    + by intros [= <-].
    + intros Ha. destruct Hold as [|Hold]; [done|].
      by specialize (Huniq _ _ _ Ha Hold).
  - intros a b l. rewrite !lookup_insert.
    repeat case_decide; simplify_eq; try done.
    + intros [= <-] Hb. by apply Hfresh in Hb.
    + intros Ha [= <-]. by apply Hfresh in Ha.
    + apply Huniq.
Qed.

(** The pointer of [s] is handed to [this]; what [this] owned before is
    deleted ([old] is null when [this] is just being constructed, and after
    [s] itself has been emptied). *)
Lemma wf_move σ this s p old os es :
  wf σ →
  objects σ !! s = Some (mkShape p) →
  old = None ∨ (this ≠ s ∧ objects σ !! this = Some (mkShape old)) →
  wf (State (<[this := mkShape p]> (<[s := mkShape None]> (objects σ)))
            (released old (heap σ)) os es).
Proof.
  intros [Hlive Huniq] Hs Hold. split; cbn [objects heap].
  - intros a l. rewrite !lookup_insert, lookup_released.
    repeat case_decide; simplify_eq; try done; eauto.
    + intros [= ->]. destruct Hold as [|[Hne Hold]]; [done|].
      by specialize (Huniq _ _ _ Hs Hold).
    + intros [= ->]. eauto.
    + intros Ha. destruct Hold as [|[Hne Hold]]; [done|].
      by specialize (Huniq _ _ _ Ha Hold).
  - intros a b l. rewrite !lookup_insert.
    repeat case_decide; simplify_eq; try done.
    + intros [= ->] Hb. by specialize (Huniq _ _ _ Hs Hb).
    + intros Ha [= ->]. by specialize (Huniq _ _ _ Hs Ha).
    + apply Huniq.
Qed.

Lemma wf_destroy σ this p os es :
  wf σ →
  objects σ !! this = Some (mkShape p) →
  wf (State (delete this (objects σ)) (released p (heap σ)) os es).
Proof.
  intros [Hlive Huniq] Hthis. split; cbn [objects heap].
  - intros a l. rewrite lookup_delete, lookup_released.
    repeat case_decide; simplify_eq; try done; eauto.
    intros Ha. by specialize (Huniq _ _ _ Ha Hthis).
  - intros a b l. rewrite !lookup_delete.
    repeat case_decide; simplify_eq; try done. apply Huniq.
Qed.

Lemma wf_cout σ f : wf σ → wf (with_cout f σ).
Proof. by intros [??]. Qed.
End Ownership.

(** ** Invariants of every run *)

Section Invariants.
Implicit Types (σ : state) (m : ShapeConcept) (c : call).

(** What a call needs in order to end. *)
Lemma draw_inv σ σ' a :
  draw a σ = Done tt σ' → ∃ l m, holds σ a l m.
Proof. intros H. inv_exec H. unfold holds. eauto. Qed.

Lemma Shape_copy_ctor_inv σ σ' this s :
  Shape_copy_ctor this s σ = Done tt σ' → ∃ l m, holds σ s l m.
Proof. intros H. inv_exec H. unfold holds. eauto. Qed.

Lemma Shape_copy_assign_inv σ σ' this s :
  Shape_copy_assign this s σ = Done tt σ' →
  ∃ l m old, holds σ s l m ∧ objects σ !! this = Some (mkShape old).
Proof. intros H. inv_exec H; unfold holds; eauto 10. Qed.

Lemma Shape_move_ctor_inv σ σ' this s :
  Shape_move_ctor this s σ = Done tt σ' → ∃ p, objects σ !! s = Some (mkShape p).
Proof. intros H. inv_exec H; destruct_shapes; eauto. Qed.

Lemma Shape_move_assign_inv σ σ' this s :
  Shape_move_assign this s σ = Done tt σ' →
  ∃ p old, objects σ !! s = Some (mkShape p) ∧ objects σ !! this = Some (mkShape old).
Proof. intros H. inv_exec H; destruct_shapes; eauto. Qed.

Lemma Shape_dtor_eq σ this p :
  objects σ !! this = Some (mkShape p) →
  (∀ l, p = Some l → is_Some (heap σ !! l)) →
  Shape_dtor this σ =
  Done tt (State (delete this (objects σ)) (released p (heap σ)) (cout σ) (specials σ)).
Proof.
  intros Hthis Hp. unfold Shape_dtor, bind, get_pimpl. rewrite Hthis. simpl.
  destruct p as [l|]; [|done].
  destruct (Hp l eq_refl) as [m Hm]. unfold delete_holder. by rewrite Hm.
Qed.

Lemma Shape_dtor_inv σ σ' this :
  Shape_dtor this σ = Done tt σ' → ∃ p, objects σ !! this = Some (mkShape p).
Proof. intros H. inv_exec H; destruct_shapes; eauto. Qed.

Lemma wf_old σ a old :
  wf σ → objects σ !! a = Some (mkShape old) →
  ∀ lo, old = Some lo → is_Some (heap σ !! lo).
Proof. intros [Hlive _] Ha lo ->. eauto. Qed.

Lemma exec_wf c σ σ' : wf σ → exec c σ = Done tt σ' → wf σ'.
Proof.
  intros Hwf Hc. destruct c; cbn [exec] in Hc.
  - rewrite Shape_ctor_eq in Hc. injection Hc as <-.
    apply (wf_new σ this _ None); auto.
  - destruct (Shape_copy_ctor_inv _ _ _ _ Hc) as (l & m & Hs).
    rewrite (Shape_copy_ctor_eq _ _ _ _ _ Hs) in Hc. injection Hc as <-.
    apply (wf_new σ this _ None); auto.
  - destruct (Shape_copy_assign_inv _ _ _ _ Hc) as (l & m & old & Hs & Hthis).
    rewrite (Shape_copy_assign_eq _ _ _ _ _ _ Hs Hthis (wf_old _ _ _ Hwf Hthis)) in Hc.
    injection Hc as <-. apply wf_new; auto.
  - destruct (Shape_move_ctor_inv _ _ _ _ Hc) as (p & Hs).
    rewrite (Shape_move_ctor_eq _ _ _ _ Hs) in Hc. injection Hc as <-.
    apply (wf_move σ this s p None); auto.
  - destruct (Shape_move_assign_inv _ _ _ _ Hc) as (p & old & Hs & Hthis).
    destruct (decide (this = s)) as [->|Hne].
    + rewrite (Shape_move_assign_self _ _ _ Hs) in Hc. injection Hc as <-.
      apply (wf_move σ s s p None); auto.
    + rewrite (Shape_move_assign_eq _ _ _ _ _ Hne Hs Hthis (wf_old _ _ _ Hwf Hthis)) in Hc.
      injection Hc as <-. apply wf_move; auto.
  - destruct (draw_inv _ _ _ Hc) as (l & m & Hs).
    rewrite (draw_eq _ _ _ _ Hs) in Hc. injection Hc as <-. by apply wf_cout.
  - destruct (Shape_dtor_inv _ _ _ Hc) as (p & Hthis).
    rewrite (Shape_dtor_eq _ _ _ Hthis (wf_old _ _ _ Hwf Hthis)) in Hc.
    injection Hc as <-. by apply wf_destroy.
Qed.

Lemma released_Some old (h : gmap positive ShapeConcept) l m :
  released old h !! l = Some m → h !! l = Some m.
Proof. rewrite lookup_released. by case_decide. Qed.

(** No call writes into a holder: a holder found after a call was there
    before, or is a copy of one that was, or is the one the call wrapped. *)
Lemma exec_heap c σ σ' l m :
  wf σ → exec c σ = Done tt σ' → heap σ' !! l = Some m →
  (∃ l0, heap σ !! l0 = Some m) ∨ (∃ this k, c = wrap this k m).
Proof.
  intros Hwf Hc. destruct c; cbn [exec] in Hc.
  - rewrite Shape_ctor_eq in Hc. injection Hc as <-. cbn [heap].
    rewrite lookup_insert. case_decide; [|by eauto].
    intros [= <-]. right. exists this, c. by rewrite ShapeModel_eta.
  - destruct (Shape_copy_ctor_inv _ _ _ _ Hc) as (ls & ms & Hs).
    rewrite (Shape_copy_ctor_eq _ _ _ _ _ Hs) in Hc. injection Hc as <-. cbn [heap].
    rewrite lookup_insert. case_decide; [|by eauto].
    intros [= <-]. left. exists ls. apply Hs.
  - destruct (Shape_copy_assign_inv _ _ _ _ Hc) as (ls & ms & old & Hs & Hthis).
    rewrite (Shape_copy_assign_eq _ _ _ _ _ _ Hs Hthis (wf_old _ _ _ Hwf Hthis)) in Hc.
    injection Hc as <-. cbn [heap]. intros Hl%released_Some. revert Hl.
    rewrite lookup_insert. case_decide; [|by eauto].
    intros [= <-]. left. exists ls. apply Hs.
  - destruct (Shape_move_ctor_inv _ _ _ _ Hc) as (p & Hs).
    rewrite (Shape_move_ctor_eq _ _ _ _ Hs) in Hc. injection Hc as <-. eauto.
  - destruct (Shape_move_assign_inv _ _ _ _ Hc) as (p & old & Hs & Hthis).
    destruct (decide (this = s)) as [->|Hne].
    + rewrite (Shape_move_assign_self _ _ _ Hs) in Hc. injection Hc as <-. eauto.
    + rewrite (Shape_move_assign_eq _ _ _ _ _ Hne Hs Hthis (wf_old _ _ _ Hwf Hthis)) in Hc.
      injection Hc as <-. cbn [heap]. intros Hl%released_Some. eauto.
  - destruct (draw_inv _ _ _ Hc) as (la & ma & Hs).
    rewrite (draw_eq _ _ _ _ Hs) in Hc. injection Hc as <-. eauto.
  - destruct (Shape_dtor_inv _ _ _ Hc) as (p & Hthis).
    rewrite (Shape_dtor_eq _ _ _ Hthis (wf_old _ _ _ Hwf Hthis)) in Hc.
    injection Hc as <-. cbn [heap]. intros Hl%released_Some. eauto.
Qed.

(** A call leaves alone the Shapes it does not write: they keep their
    holder, at the same address and with the same content. *)
Lemma exec_frame c σ σ' a l m :
  wf σ → exec c σ = Done tt σ' → a ∉ written c → holds σ a l m → holds σ' a l m.
Proof.
  intros Hwf Hc Hnot [Ha Hl].
  assert (Hfresh : l ≠ fresh (dom (heap σ))) by (apply fresh_heap_ne; eauto).
  assert (Hold : ∀ b old, a ≠ b → objects σ !! b = Some (mkShape old) →
                          released old (heap σ) !! l = Some m).
  { intros b old Hb Hbo. rewrite lookup_released. case_decide as Heq; [|done].
    subst old. by specialize (wf_unique _ Hwf _ _ _ Hbo Ha). }
  destruct c; cbn [exec written] in Hc, Hnot;
    repeat (apply not_elem_of_cons in Hnot as [? Hnot]).
  - rewrite Shape_ctor_eq in Hc. injection Hc as <-.
    split; cbn [objects heap]; by rewrite lookup_insert_ne.
  - destruct (Shape_copy_ctor_inv _ _ _ _ Hc) as (ls & ms & Hs).
    rewrite (Shape_copy_ctor_eq _ _ _ _ _ Hs) in Hc. injection Hc as <-.
    split; cbn [objects heap]; by rewrite lookup_insert_ne.
  - destruct (Shape_copy_assign_inv _ _ _ _ Hc) as (ls & ms & old & Hs & Hthis).
    rewrite (Shape_copy_assign_eq _ _ _ _ _ _ Hs Hthis (wf_old _ _ _ Hwf Hthis)) in Hc.
    injection Hc as <-. split; cbn [objects heap]; [by rewrite lookup_insert_ne|].
    rewrite lookup_released. case_decide as Heq.
    + subst old. by specialize (wf_unique _ Hwf _ _ _ Hthis Ha).
    + by rewrite lookup_insert_ne.
  - destruct (Shape_move_ctor_inv _ _ _ _ Hc) as (p & Hs).
    rewrite (Shape_move_ctor_eq _ _ _ _ Hs) in Hc. injection Hc as <-.
    split; cbn [objects heap with_objects]; [|done].
    by rewrite !lookup_insert_ne.
  - destruct (Shape_move_assign_inv _ _ _ _ Hc) as (p & old & Hs & Hthis).
    destruct (decide (this = s)) as [->|Hne].
    + rewrite (Shape_move_assign_self _ _ _ Hs) in Hc. injection Hc as <-.
      split; cbn [objects heap with_objects]; [|done].
      by rewrite !lookup_insert_ne.
    + rewrite (Shape_move_assign_eq _ _ _ _ _ Hne Hs Hthis (wf_old _ _ _ Hwf Hthis)) in Hc.
      injection Hc as <-. split; cbn [objects heap]; [|by apply (Hold this old)].
      by rewrite !lookup_insert_ne.
  - destruct (draw_inv _ _ _ Hc) as (la & ma & Hs).
    rewrite (draw_eq _ _ _ _ Hs) in Hc. by injection Hc as <-.
  - destruct (Shape_dtor_inv _ _ _ Hc) as (p & Hthis).
    rewrite (Shape_dtor_eq _ _ _ Hthis (wf_old _ _ _ Hwf Hthis)) in Hc.
    injection Hc as <-. split; cbn [objects heap]; [|by apply (Hold this p)].
    by rewrite lookup_delete_ne.
Qed.

Lemma run_cons c cs σ σ' :
  run (c :: cs) σ = Done tt σ' →
  ∃ σ1, exec c σ = Done tt σ1 ∧ run cs σ1 = Done tt σ'.
Proof.
  cbn [run]. unfold bind. destruct (exec c σ) as [[] σ1|]; [eauto|done].
Qed.

Lemma run_wf cs σ σ' : wf σ → run cs σ = Done tt σ' → wf σ'.
Proof.
  revert σ. induction cs as [|c cs IH]; intros σ Hwf Hrun.
  - by injection Hrun as <-.
  - apply run_cons in Hrun as (σ1 & Hc & Hrun). eauto using exec_wf.
Qed.

Lemma run_heap cs σ σ' l m :
  wf σ → run cs σ = Done tt σ' → heap σ' !! l = Some m →
  (∃ l0, heap σ !! l0 = Some m) ∨ (∃ this k, wrap this k m ∈ cs).
Proof.
  revert σ. induction cs as [|c cs IH]; intros σ Hwf Hrun Hl.
  - injection Hrun as <-. eauto.
  - apply run_cons in Hrun as (σ1 & Hc & Hrun).
    destruct (IH σ1 (exec_wf _ _ _ Hwf Hc) Hrun Hl) as [[l1 Hl1]|(this & k & Hin)].
    + destruct (exec_heap _ _ _ _ _ Hwf Hc Hl1) as [?|(this & k & ->)]; [by left|].
      right. exists this, k. left.
    + right. exists this, k. by right.
Qed.

Lemma draws_eq n σ a l m :
  holds σ a l m →
  draws n a σ = Done tt (with_cout (Nat.iter n (ShapeModel_draw m)) σ).
Proof.
  revert σ. induction n as [|n IH]; intros σ Ha; [by destruct σ|].
  cbn [draws]. unfold bind. rewrite (draw_eq _ _ _ _ Ha).
  rewrite (IH (with_cout (ShapeModel_draw m) σ) Ha).
  unfold with_cout. cbn [objects heap cout specials].
  by rewrite <- Nat.iter_succ_r.
Qed.
End Invariants.

(** ** Wrapping, drawing and assignment *)

(** C1. A Shape constructed from a value [v] of any type [T] that has a
    [drawShape] overload (Circle, Square and Triangle are such types), when
    drawn, writes to [std::cout] exactly what [drawShape v] writes; this holds
    in every state and whether the caller passes an lvalue or a temporary. *)
Theorem draw_of_wrapped {T} `{Drawable T} (v : T) (this : positive) (k : category) (σ : state) :
  ∃ σ', (Shape_ctor this k v ;; draw this) σ = Done tt σ' ∧
        cout σ' = drawShape v (cout σ).
Proof.
  eexists. unfold bind. rewrite Shape_ctor_eq. split.
  - apply (draw_eq _ this (fresh (dom (heap σ))) (ShapeModel v)).
    split; cbn [objects heap]; apply lookup_insert_eq.
  - reflexivity.
Qed.

(** With the reference [NumPut]: one line per type, the line its own
    [drawShape] writes. *)
Example draw_of_wrapped_circle :
  cout <$> final ((@Shape_ctor _ (@drawShape_Circle printf_g) circle rvalue (Circle_ctor 230) ;;
                   draw circle) start)
  = Some ("Circle: 230" ++ newline).
Proof. reflexivity. Qed.

Example draw_of_wrapped_square :
  cout <$> final ((@Shape_ctor _ (@drawShape_Square printf_g) square const_lvalue (Square_ctor 2.5) ;;
                   draw square) start)
  = Some ("Square: 2.5" ++ newline).
Proof. reflexivity. Qed.

Example draw_of_wrapped_triangle :
  cout <$> final ((Shape_ctor 7 rvalue Triangle_ctor ;; draw 7) start)
  = Some ("Δ" ++ newline).
Proof. reflexivity. Qed.

(** C2. In every state reached from program start by calls of [Shape]'s
    operations, a Shape with a non-null [pimpl] points to a live holder that is
    one of the (type, overload, value) packages some earlier construction
    wrapped, and each [draw] of it applies to [std::cout] the [drawShape]
    overload of that package to the object of that package.  Copy assignment of a Shape holding [mA] over a Shape
    holding [mB] leaves the target with a holder equal to [mA] as a whole,
    value and overload together; the holder of [mB] is gone, the source still
    holds [mA], and every later [draw] of the target runs [mA]'s overload on
    [mA]'s object. *)
Theorem binding_follows_value (cs : list call) (σ : state)
    (this s lt ls : positive) (mA mB : ShapeConcept) :
  run cs start = Done tt σ →
  holds σ s ls mA →
  holds σ this lt mB →
  (∀ a l, objects σ !! a = Some (mkShape (Some l)) →
     ∃ m, heap σ !! l = Some m ∧ (∃ a0 k, wrap a0 k m ∈ cs) ∧
          draw a σ = Done tt (with_cout (@drawShape (T m) (T_drawShape m) (object m)) σ) ∧
          ∀ n, draws n a σ =
               Done tt (with_cout (Nat.iter n (@drawShape (T m) (T_drawShape m) (object m))) σ)) ∧
  ∃ σ' l',
    Shape_copy_assign this s σ = Done tt σ' ∧
    holds σ' this l' mA ∧
    heap σ' !! lt = None ∧
    (∃ ls', holds σ' s ls' mA) ∧
    draw this σ' =
      Done tt (with_cout (@drawShape (T mA) (T_drawShape mA) (object mA)) σ') ∧
    ∀ n, draws n this σ' =
         Done tt (with_cout (Nat.iter n (@drawShape (T mA) (T_drawShape mA) (object mA))) σ').
Proof.
  intros Hrun Hs Hthis.
  pose proof (run_wf _ _ _ wf_start Hrun) as Hwf.
  split.
  - intros a l Ha. destruct (wf_live _ Hwf _ _ Ha) as [m Hm].
    exists m. split; [done|]. split.
    + destruct (run_heap _ _ _ _ _ wf_start Hrun Hm) as [[l0 Hl0]|?]; [|done].
      unfold start in Hl0. cbn [heap] in Hl0. by rewrite lookup_empty in Hl0.
    + split; [by apply (draw_eq σ a l m)|].
      intros n. by apply (draws_eq n σ a l m).
  - destruct Hthis as [Hthis Hlt]. pose proof Hs as [Hs1 Hs2].
    rewrite (Shape_copy_assign_eq _ _ _ _ _ _ Hs Hthis (wf_old _ _ _ Hwf Hthis)).
    set (lf := fresh (dom (heap σ))).
    assert (Hlf : lt ≠ lf) by (apply fresh_heap_ne; eauto).
    assert (Hnew : holds (State (<[this:=mkShape (Some lf)]> (objects σ))
                (released (Some lt) (<[lf:=mA]> (heap σ)))
                (endl (put_string (cout σ) "copy assign"))
                (app (specials σ) [copy_constructed])) this lf mA).
    { split; cbn [objects heap]; [apply lookup_insert_eq|].
      rewrite lookup_released, lookup_insert_eq. case_decide; congruence. }
    eexists _, lf. split; [done|]. split; [done|]. split; [|split].
    + cbn [heap]. rewrite lookup_released. by case_decide.
    + destruct (decide (this = s)) as [->|Hne]; [by exists lf|].
      exists ls. split; cbn [objects heap].
      * by rewrite lookup_insert_ne.
      * rewrite lookup_released. case_decide as Heq.
        -- injection Heq as ->. by specialize (wf_unique _ Hwf _ _ _ Hthis Hs1).
        -- rewrite lookup_insert_ne; [done|]. apply not_eq_sym, fresh_heap_ne. eauto.
    + split; [by apply (draw_eq _ this lf mA)|].
      intros n. by apply (draws_eq n _ this lf mA).
Qed.


(** The theorem at the state of [main] after its first two lines: the
    square Shape assigned to the circle Shape. *)
Lemma binding_follows_value_witness :
  run two_wraps start = Done tt (after two_wraps) ∧
  holds (after two_wraps) square 1 square_230 ∧
  holds (after two_wraps) circle 2 circle_230 ∧
  (∀ a l, objects (after two_wraps) !! a = Some (mkShape (Some l)) →
     ∃ m, heap (after two_wraps) !! l = Some m ∧ (∃ a0 k, wrap a0 k m ∈ two_wraps) ∧
          draw a (after two_wraps) =
            Done tt (with_cout (@drawShape (T m) (T_drawShape m) (object m)) (after two_wraps)) ∧
          ∀ n, draws n a (after two_wraps) =
               Done tt (with_cout (Nat.iter n (@drawShape (T m) (T_drawShape m) (object m)))
                          (after two_wraps))) ∧
  ∃ σ' l',
    Shape_copy_assign circle square (after two_wraps) = Done tt σ' ∧
    holds σ' circle l' square_230 ∧
    heap σ' !! 2%positive = None ∧
    (∃ ls', holds σ' square ls' square_230) ∧
    draw circle σ' =
      Done tt (with_cout (@drawShape Square (@drawShape_Square printf_g) (Square_ctor 230)) σ') ∧
    ∀ n, draws n circle σ' =
         Done tt (with_cout
                    (Nat.iter n (@drawShape Square (@drawShape_Square printf_g) (Square_ctor 230)))
                    σ').
Proof.
  assert (H1 : run two_wraps start = Done tt (after two_wraps)) by reflexivity.
  assert (H2 : holds (after two_wraps) square 1 square_230) by (split; reflexivity).
  assert (H3 : holds (after two_wraps) circle 2 circle_230) by (split; reflexivity).
  split; [exact H1|]. split; [exact H2|]. split; [exact H3|].
  exact (binding_follows_value two_wraps (after two_wraps) circle square 2 1
           square_230 circle_230 H1 H2 H3).
Defined.

(** ** Copies *)

(** Two Shapes with distinct holders: whatever happens to the holder of one
    (its object overwritten, the holder deleted), drawing the other is
    unaffected. *)
Lemma distinct_holders_frame σ a b la lb ma mb (h' : gmap positive ShapeConcept) :
  holds σ a la ma → holds σ b lb mb → la ≠ lb →
  (∀ l, l ≠ lb → h' !! l = heap σ !! l) →
  draw a (with_heap (λ _, h') σ) =
  Done tt (with_cout (ShapeModel_draw ma) (with_heap (λ _, h') σ)).
Proof.
  intros [Ha Hla] _ Hne Hh'. apply (draw_eq _ a la ma). split; cbn [objects heap with_heap].
  - done.
  - by rewrite Hh'.
Qed.

(** C3. Copy construction and copy assignment of [w2] from a Shape [w1]
    holding [m] both end with [w1] still holding [m] in its own holder, [w2]
    holding an equal holder at a different address (same type, same overload,
    equal object), and exclusive ownership intact.  The two share no state:
    replace the heap by any heap that differs from it only at the holder of
    [w1] (the held object mutated, or the holder deleted), and [draw w2] still
    writes what [m] writes; and whatever operation of [Shape] is then applied
    to other Shapes, [w1] among them (assigned to, moved from, destroyed),
    [w2] keeps its holder.  The same holds with the roles exchanged. *)
Theorem copies_are_independent (σ : state) (w1 w2 l1 : positive) (m : ShapeConcept) :
  wf σ →
  holds σ w1 l1 m →
  w2 ≠ w1 →
  let independent σ' l2 :=
    holds σ' w1 l1 m ∧ holds σ' w2 l2 m ∧ l2 ≠ l1 ∧ wf σ' ∧
    (∀ h' : gmap positive ShapeConcept,
       (∀ l, l ≠ l1 → h' !! l = heap σ' !! l) →
       draw w2 (with_heap (λ _, h') σ') =
       Done tt (with_cout (ShapeModel_draw m) (with_heap (λ _, h') σ'))) ∧
    (∀ h' : gmap positive ShapeConcept,
       (∀ l, l ≠ l2 → h' !! l = heap σ' !! l) →
       draw w1 (with_heap (λ _, h') σ') =
       Done tt (with_cout (ShapeModel_draw m) (with_heap (λ _, h') σ'))) ∧
    (∀ c σ'', w2 ∉ written c → exec c σ' = Done tt σ'' → holds σ'' w2 l2 m) ∧
    (∀ c σ'', w1 ∉ written c → exec c σ' = Done tt σ'' → holds σ'' w1 l1 m) in
  (∃ σ' l2, Shape_copy_ctor w2 w1 σ = Done tt σ' ∧ independent σ' l2) ∧
  (∀ old, objects σ !! w2 = Some (mkShape old) →
     ∃ σ' l2, Shape_copy_assign w2 w1 σ = Done tt σ' ∧ independent σ' l2).
Proof.
  intros Hwf Hw1 Hne independent.
  set (lf := fresh (dom (heap σ))).
  assert (Hlf : l1 ≠ lf) by (apply fresh_heap_ne; destruct Hw1; eauto).
  assert (Hframe : ∀ σ', holds σ' w1 l1 m → holds σ' w2 lf m → wf σ' → independent σ' lf).
  { intros σ' H1 H2 Hwf'. repeat split; try apply H1; try apply H2; try done.
    - apply Hwf'.
    - apply Hwf'.
    - intros h' Hh'. by apply (distinct_holders_frame σ' w2 w1 lf l1 m m).
    - intros h' Hh'. by apply (distinct_holders_frame σ' w1 w2 l1 lf m m).
    - apply (exec_frame c σ' σ'' w2 lf m); done.
    - apply (exec_frame c σ' σ'' w2 lf m); done.
    - apply (exec_frame c σ' σ'' w1 l1 m); done.
    - apply (exec_frame c σ' σ'' w1 l1 m); done. }
  destruct Hw1 as [Ho1 Hh1]. split.
  - pose proof (Shape_copy_ctor_eq σ w2 w1 l1 m (conj Ho1 Hh1)) as Heq.
    eexists _, lf. split; [exact Heq|]. apply Hframe.
    + split; cbn [objects heap]; by rewrite lookup_insert_ne.
    + split; cbn [objects heap]; apply lookup_insert_eq.
    + apply (exec_wf (copy_construct w2 w1) σ); done.
  - intros old Hw2.
    pose proof (Shape_copy_assign_eq σ w2 w1 l1 m old (conj Ho1 Hh1) Hw2
                  (wf_old _ _ _ Hwf Hw2)) as Heq.
    eexists _, lf. split; [exact Heq|]. apply Hframe.
    + split; cbn [objects heap]; [by rewrite lookup_insert_ne|].
      rewrite lookup_released. case_decide as Hold.
      * subst old. by specialize (wf_unique _ Hwf _ _ _ Hw2 Ho1).
      * by rewrite lookup_insert_ne.
    + split; cbn [objects heap]; [apply lookup_insert_eq|].
      rewrite lookup_released, lookup_insert_eq. case_decide as Hold; [|done].
      subst old. destruct (wf_live _ Hwf _ _ Hw2) as [mo Hmo].
      unfold lf in Hmo. by rewrite fresh_heap in Hmo.
    + apply (exec_wf (copy_assign w2 w1) σ); done.
Qed.

(** The theorem at the state of [main] after its first two lines: the
    circle Shape copied into the square Shape. *)
Lemma copies_are_independent_witness :
  wf (after two_wraps) ∧
  holds (after two_wraps) circle 2 circle_230 ∧
  square ≠ circle ∧
  let independent σ' l2 :=
    holds σ' circle 2 circle_230 ∧ holds σ' square l2 circle_230 ∧ l2 ≠ 2%positive ∧ wf σ' ∧
    (∀ h' : gmap positive ShapeConcept,
       (∀ l, l ≠ 2%positive → h' !! l = heap σ' !! l) →
       draw square (with_heap (λ _, h') σ') =
       Done tt (with_cout (ShapeModel_draw circle_230) (with_heap (λ _, h') σ'))) ∧
    (∀ h' : gmap positive ShapeConcept,
       (∀ l, l ≠ l2 → h' !! l = heap σ' !! l) →
       draw circle (with_heap (λ _, h') σ') =
       Done tt (with_cout (ShapeModel_draw circle_230) (with_heap (λ _, h') σ'))) ∧
    (∀ c σ'', square ∉ written c → exec c σ' = Done tt σ'' → holds σ'' square l2 circle_230) ∧
    (∀ c σ'', circle ∉ written c → exec c σ' = Done tt σ'' → holds σ'' circle 2 circle_230) in
  (∃ σ' l2, Shape_copy_ctor square circle (after two_wraps) = Done tt σ' ∧ independent σ' l2) ∧
  (∀ old, objects (after two_wraps) !! square = Some (mkShape old) →
     ∃ σ' l2, Shape_copy_assign square circle (after two_wraps) = Done tt σ' ∧
              independent σ' l2).
Proof.
  assert (H1 : wf (after two_wraps)) by (apply (run_wf two_wraps start); [apply wf_start|reflexivity]).
  assert (H2 : holds (after two_wraps) circle 2 circle_230) by (split; reflexivity).
  assert (H3 : square ≠ circle) by discriminate.
  split; [exact H1|]. split; [exact H2|]. split; [exact H3|].
  exact (copies_are_independent (after two_wraps) circle square 2 circle_230 H1 H2 H3).
Defined.

(** ** Moves *)

(** C4. Move construction and move assignment of [w2] from a Shape [w1]
    holding [m] at address [l] end with [w2] owning that very holder at [l]:
    no holder is allocated (the heap is unchanged but for the holder [w2]
    owned before a move assignment, which is deleted), no constructor of the
    held type runs, and nothing is printed.  Drawing [w2] afterwards writes
    exactly what drawing [w1] before the move writes.  [w1] is left with a null
    [pimpl], and drawing it is undefined. *)
Theorem move_transfers_holder (σ : state) (w1 w2 l : positive) (m : ShapeConcept) :
  wf σ →
  holds σ w1 l m →
  w2 ≠ w1 →
  let transferred old σ' :=
    heap σ' = released old (heap σ) ∧ specials σ' = specials σ ∧ cout σ' = cout σ ∧
    holds σ' w2 l m ∧ moved_from σ' w1 ∧
    cout <$> final (draw w2 σ') = cout <$> final (draw w1 σ) ∧
    draw w2 σ' = Done tt (with_cout (ShapeModel_draw m) σ') ∧
    draw w1 σ' = Undefined in
  (∃ σ', Shape_move_ctor w2 w1 σ = Done tt σ' ∧ transferred None σ') ∧
  (∀ old, objects σ !! w2 = Some (mkShape old) →
     ∃ σ', Shape_move_assign w2 w1 σ = Done tt σ' ∧ transferred old σ').
Proof.
  intros Hwf Hw1 Hne transferred.
  assert (Hdone : ∀ old σ',
    objects σ' = <[w2 := mkShape (Some l)]> (<[w1 := mkShape None]> (objects σ)) →
    heap σ' = released old (heap σ) → specials σ' = specials σ → cout σ' = cout σ →
    old ≠ Some l → transferred old σ').
  { intros old σ' Ho Hh Hs Hc Hold.
    assert (H2 : holds σ' w2 l m).
    { split; [rewrite Ho; apply lookup_insert_eq|].
      rewrite Hh, lookup_released. case_decide; [done|apply Hw1]. }
    assert (H1 : moved_from σ' w1).
    { unfold moved_from. rewrite Ho, lookup_insert_ne, lookup_insert_eq; done. }
    repeat split; try done; try apply H2.
    - rewrite (draw_eq _ _ _ _ H2), (draw_eq _ _ _ _ Hw1). simpl. by rewrite Hc.
    - apply (draw_eq σ' w2 l m H2).
    - by apply draw_moved_from. }
  destruct Hw1 as [Ho1 Hh1]. split.
  - rewrite (Shape_move_ctor_eq σ w2 w1 _ Ho1). eexists. split; [done|].
    by apply Hdone.
  - intros old Hw2.
    rewrite (Shape_move_assign_eq σ w2 w1 _ old Hne Ho1 Hw2 (wf_old _ _ _ Hwf Hw2)).
    eexists. split; [done|]. apply Hdone; try done.
    intros ->. by specialize (wf_unique _ Hwf _ _ _ Hw2 Ho1).
Qed.

(** The theorem at the state of [main] after its first two lines: the
    circle Shape moved into the square Shape. *)
Lemma move_transfers_holder_witness :
  wf (after two_wraps) ∧
  holds (after two_wraps) circle 2 circle_230 ∧
  square ≠ circle ∧
  let transferred old σ' :=
    heap σ' = released old (heap (after two_wraps)) ∧
    specials σ' = specials (after two_wraps) ∧ cout σ' = cout (after two_wraps) ∧
    holds σ' square 2 circle_230 ∧ moved_from σ' circle ∧
    cout <$> final (draw square σ') = cout <$> final (draw circle (after two_wraps)) ∧
    draw square σ' = Done tt (with_cout (ShapeModel_draw circle_230) σ') ∧
    draw circle σ' = Undefined in
  (∃ σ', Shape_move_ctor square circle (after two_wraps) = Done tt σ' ∧ transferred None σ') ∧
  (∀ old, objects (after two_wraps) !! square = Some (mkShape old) →
     ∃ σ', Shape_move_assign square circle (after two_wraps) = Done tt σ' ∧
           transferred old σ').
Proof.
  assert (H1 : wf (after two_wraps)) by (apply (run_wf two_wraps start); [apply wf_start|reflexivity]).
  assert (H2 : holds (after two_wraps) circle 2 circle_230) by (split; reflexivity).
  assert (H3 : square ≠ circle) by discriminate.
  split; [exact H1|]. split; [exact H2|]. split; [exact H3|].
  exact (move_transfers_holder (after two_wraps) circle square 2 circle_230 H1 H2 H3).
Defined.

(** ** Dereferencing [pimpl] *)

(** C8. [draw] dereferences [pimpl] without a check.  For a live Shape with
    exclusive ownership in force: when [pimpl] is non-null the holder is found
    and its [draw] runs; the computation is undefined exactly when [pimpl] is
    null, and there is no third outcome (no error is reported).  A Shape that
    has been moved from, by move construction or, for a live target, by move
    assignment, has a null [pimpl], and drawing it is undefined. *)
Theorem draw_dereferences_unchecked (σ : state) (a : positive) (p : unique_ptr) :
  wf σ →
  objects σ !! a = Some (mkShape p) →
  (∀ l, p = Some l →
     ∃ m, heap σ !! l = Some m ∧ draw a σ = Done tt (with_cout (ShapeModel_draw m) σ)) ∧
  (draw a σ = Undefined ↔ p = None) ∧
  (∀ b, b ≠ a →
     ∃ σ', Shape_move_ctor b a σ = Done tt σ' ∧ moved_from σ' a ∧ draw a σ' = Undefined) ∧
  (∀ b old, b ≠ a → objects σ !! b = Some (mkShape old) →
     ∃ σ', Shape_move_assign b a σ = Done tt σ' ∧ moved_from σ' a ∧ draw a σ' = Undefined).
Proof.
  intros Hwf Ha.
  assert (Hsome : ∀ l, p = Some l →
    ∃ m, heap σ !! l = Some m ∧ draw a σ = Done tt (with_cout (ShapeModel_draw m) σ)).
  { intros l ->. destruct (wf_live _ Hwf _ _ Ha) as [m Hm].
    exists m. split; [done|]. by apply (draw_eq σ a l m). }
  assert (Hmoved : ∀ σ' b, b ≠ a →
    objects σ' = <[b := mkShape p]> (<[a := mkShape None]> (objects σ)) →
    moved_from σ' a ∧ draw a σ' = Undefined).
  { intros σ' b Hb Ho.
    assert (moved_from σ' a).
    { unfold moved_from. rewrite Ho, lookup_insert_ne, lookup_insert_eq; done. }
    split; [done|]. by apply draw_moved_from. }
  split; [done|]. split; [|split].
  - split.
    + intros Hub. destruct p as [l|]; [|done].
      destruct (Hsome l eq_refl) as (m & _ & Hdraw). congruence.
    + intros ->. by apply draw_moved_from.
  - intros b Hb. rewrite (Shape_move_ctor_eq σ b a p Ha).
    eexists. split; [done|]. by apply (Hmoved _ b).
  - intros b old Hb Hbo.
    rewrite (Shape_move_assign_eq σ b a p old Hb Ha Hbo (wf_old _ _ _ Hwf Hbo)).
    eexists. split; [done|]. by apply (Hmoved _ b).
Qed.

(** The theorem at the circle Shape of [main], which holds a value. *)
Lemma draw_dereferences_unchecked_witness :
  wf (after two_wraps) ∧
  objects (after two_wraps) !! circle = Some (mkShape (Some 2%positive)) ∧
  (∀ l, Some 2%positive = Some l →
     ∃ m, heap (after two_wraps) !! l = Some m ∧
          draw circle (after two_wraps) =
          Done tt (with_cout (ShapeModel_draw m) (after two_wraps))) ∧
  (draw circle (after two_wraps) = Undefined ↔ Some 2%positive = None) ∧
  (∀ b, b ≠ circle →
     ∃ σ', Shape_move_ctor b circle (after two_wraps) = Done tt σ' ∧
           moved_from σ' circle ∧ draw circle σ' = Undefined) ∧
  (∀ b old, b ≠ circle → objects (after two_wraps) !! b = Some (mkShape old) →
     ∃ σ', Shape_move_assign b circle (after two_wraps) = Done tt σ' ∧
           moved_from σ' circle ∧ draw circle σ' = Undefined).
Proof.
  assert (H1 : wf (after two_wraps)) by (apply (run_wf two_wraps start); [apply wf_start|reflexivity]).
  assert (H2 : objects (after two_wraps) !! circle = Some (mkShape (Some 2%positive))) by reflexivity.
  split; [exact H1|]. split; [exact H2|].
  exact (draw_dereferences_unchecked (after two_wraps) circle (Some 2%positive) H1 H2).
Defined.

(** ** What the special members print *)

Lemma append_assoc (s1 s2 s3 : string) : (s1 ++ s2) ++ s3 = s1 ++ s2 ++ s3.
Proof.
  induction s1 as [|c s1 IH]; [reflexivity|].
  change (String c ((s1 ++ s2) ++ s3) = String c (s1 ++ s2 ++ s3)).
  by rewrite IH.
Qed.

(** The target of a copy assignment holds a copy of the source's holder. *)
Lemma holds_after_copy_assign σ this m old os es :
  wf σ →
  old = None ∨ objects σ !! this = Some (mkShape old) →
  holds (State (<[this := mkShape (Some (fresh (dom (heap σ))))]> (objects σ))
               (released old (<[fresh (dom (heap σ)) := m]> (heap σ))) os es)
        this (fresh (dom (heap σ))) m.
Proof.
  intros Hwf Hthis. split; cbn [objects heap]; [apply lookup_insert_eq|].
  rewrite lookup_released, lookup_insert_eq. case_decide as Hold; [|done].
  subst old. destruct Hthis as [|Hthis]; [done|].
  destruct (wf_live _ Hwf _ _ Hthis) as [mo Hmo].
  by rewrite fresh_heap in Hmo.
Qed.

(** C9. Copy construction writes the line [copy ctor] to [std::cout] and
    copy assignment the line [copy assign], each besides giving the target a
    copy of the source's holder; move construction and move assignment leave
    [std::cout] as it was. *)
Theorem copies_print_moves_do_not (σ : state) (this s l : positive) (m : ShapeConcept) :
  wf σ →
  holds σ s l m →
  (∃ σ' l', Shape_copy_ctor this s σ = Done tt σ' ∧
            cout σ' = cout σ ++ "copy ctor" ++ newline ∧ holds σ' this l' m) ∧
  (∃ σ', Shape_move_ctor this s σ = Done tt σ' ∧ cout σ' = cout σ) ∧
  (∀ old, objects σ !! this = Some (mkShape old) →
     (∃ σ' l', Shape_copy_assign this s σ = Done tt σ' ∧
               cout σ' = cout σ ++ "copy assign" ++ newline ∧ holds σ' this l' m) ∧
     (∃ σ', Shape_move_assign this s σ = Done tt σ' ∧ cout σ' = cout σ)).
Proof.
  intros Hwf Hs. pose proof Hs as [Hso Hsh]. split; [|split].
  - rewrite (Shape_copy_ctor_eq σ this s l m Hs). eexists _, _.
    split; [done|]. split.
    + cbn [cout]. unfold endl, put_string. apply append_assoc.
    + apply (holds_after_copy_assign σ this m None); auto.
  - rewrite (Shape_move_ctor_eq σ this s _ Hso). by eexists.
  - intros old Hthis. split.
    + rewrite (Shape_copy_assign_eq σ this s l m old Hs Hthis (wf_old _ _ _ Hwf Hthis)).
      eexists _, _. split; [done|]. split.
      * cbn [cout]. unfold endl, put_string. apply append_assoc.
      * apply holds_after_copy_assign; auto.
    + destruct (decide (this = s)) as [->|Hne].
      * rewrite (Shape_move_assign_self σ s _ Hso). by eexists.
      * rewrite (Shape_move_assign_eq σ this s _ old Hne Hso Hthis (wf_old _ _ _ Hwf Hthis)).
        by eexists.
Qed.

(** The theorem at the state of [main] after its first two lines, from
    the circle Shape to the square Shape. *)
Lemma copies_print_moves_do_not_witness :
  wf (after two_wraps) ∧
  holds (after two_wraps) circle 2 circle_230 ∧
  (∃ σ' l', Shape_copy_ctor square circle (after two_wraps) = Done tt σ' ∧
            cout σ' = cout (after two_wraps) ++ "copy ctor" ++ newline ∧
            holds σ' square l' circle_230) ∧
  (∃ σ', Shape_move_ctor square circle (after two_wraps) = Done tt σ' ∧
         cout σ' = cout (after two_wraps)) ∧
  (∀ old, objects (after two_wraps) !! square = Some (mkShape old) →
     (∃ σ' l', Shape_copy_assign square circle (after two_wraps) = Done tt σ' ∧
               cout σ' = cout (after two_wraps) ++ "copy assign" ++ newline ∧
               holds σ' square l' circle_230) ∧
     (∃ σ', Shape_move_assign square circle (after two_wraps) = Done tt σ' ∧
            cout σ' = cout (after two_wraps))).
Proof.
  assert (H1 : wf (after two_wraps)) by (apply (run_wf two_wraps start); [apply wf_start|reflexivity]).
  assert (H2 : holds (after two_wraps) circle 2 circle_230) by (split; reflexivity).
  split; [exact H1|]. split; [exact H2|].
  exact (copies_print_moves_do_not (after two_wraps) square circle 2 circle_230 H1 H2).
Defined.

(** ** Self-assignment *)

(** C10. Copy assignment of a Shape holding [m] to itself is defined and
    leaves it holding a holder equal to [m], with exclusive ownership intact;
    drawing it runs the same [drawShape] on an equal object as before.  The
    order of evaluation is what makes it so: [s.pimpl->clone()] first runs to
    completion, leaving both the old holder and its duplicate on the heap at
    different addresses, and only then does [reset] delete the old one. *)
Theorem self_assignment_is_safe (σ : state) (w l : positive) (m : ShapeConcept) :
  wf σ →
  holds σ w l m →
  ∃ l' σ1 σ2 σ',
    pimpl_clone w σ = Done (Some l') σ1 ∧
    heap σ1 !! l = Some m ∧ heap σ1 !! l' = Some m ∧ l' ≠ l ∧
    reset w (Some l') σ1 = Done tt σ2 ∧
    heap σ2 !! l = None ∧ heap σ2 !! l' = Some m ∧
    Shape_copy_assign w w σ = Done tt σ' ∧
    σ' = with_cout (λ os, endl (put_string os "copy assign")) σ2 ∧
    holds σ' w l' m ∧ wf σ' ∧
    draw w σ = Done tt (with_cout (ShapeModel_draw m) σ) ∧
    draw w σ' = Done tt (with_cout (ShapeModel_draw m) σ').
Proof.
  intros Hwf Hw. pose proof Hw as [Ho Hh].
  set (lf := fresh (dom (heap σ))).
  assert (Hlf : l ≠ lf) by (apply fresh_heap_ne; eauto).
  pose proof (Shape_copy_assign_eq σ w w l m (Some l) Hw Ho (wf_old _ _ _ Hwf Ho)) as Heq.
  pose proof (holds_after_copy_assign σ w m (Some l)
                (endl (put_string (cout σ) "copy assign"))
                (app (specials σ) [copy_constructed]) Hwf (or_intror Ho)) as Hnew.
  exists lf. eexists _, _, _. split.
  { unfold pimpl_clone, bind, get_pimpl, deref. rewrite Ho. simpl. rewrite Hh.
    unfold ShapeModel_clone, ShapeModel_copy_ctor, new, log, bind, ret.
    cbn [heap with_specials]. rewrite ShapeModel_eta. reflexivity. }
  cbn [heap with_heap with_specials objects]. split.
  { by rewrite lookup_insert_ne. }
  split; [apply lookup_insert_eq|]. split; [done|]. split.
  { unfold reset, bind, get_pimpl, set_pimpl, delete_holder. simpl.
    rewrite Ho. simpl. rewrite lookup_insert_ne by done. rewrite Hh. reflexivity. }
  cbn [heap with_heap with_specials with_objects objects]. split.
  { apply lookup_delete_eq. }
  split.
  { rewrite lookup_delete_ne by done. apply lookup_insert_eq. }
  split; [exact Heq|]. split; [reflexivity|]. split; [exact Hnew|]. split.
  { apply (exec_wf (copy_assign w w) σ); done. }
  split; [by apply (draw_eq σ w l m)|].
  apply (draw_eq _ w lf m). exact Hnew.
Qed.

(** The theorem at the circle Shape of [main]: [circle = circle]. *)
Lemma self_assignment_is_safe_witness :
  wf (after two_wraps) ∧
  holds (after two_wraps) circle 2 circle_230 ∧
  ∃ l' σ1 σ2 σ',
    pimpl_clone circle (after two_wraps) = Done (Some l') σ1 ∧
    heap σ1 !! 2%positive = Some circle_230 ∧ heap σ1 !! l' = Some circle_230 ∧
    l' ≠ 2%positive ∧
    reset circle (Some l') σ1 = Done tt σ2 ∧
    heap σ2 !! 2%positive = None ∧ heap σ2 !! l' = Some circle_230 ∧
    Shape_copy_assign circle circle (after two_wraps) = Done tt σ' ∧
    σ' = with_cout (λ os, endl (put_string os "copy assign")) σ2 ∧
    holds σ' circle l' circle_230 ∧ wf σ' ∧
    draw circle (after two_wraps) =
      Done tt (with_cout (ShapeModel_draw circle_230) (after two_wraps)) ∧
    draw circle σ' = Done tt (with_cout (ShapeModel_draw circle_230) σ').
Proof.
  assert (H1 : wf (after two_wraps)) by (apply (run_wf two_wraps start); [apply wf_start|reflexivity]).
  assert (H2 : holds (after two_wraps) circle 2 circle_230) by (split; reflexivity).
  split; [exact H1|]. split; [exact H2|].
  exact (self_assignment_is_safe (after two_wraps) circle 2 circle_230 H1 H2).
Defined.

(** ** The scenarios of [main] *)

(** C5. In [main], after lines 33 to 37 (both Shapes constructed, the circle
    drawn, copied, then assigned the square), [draw(circle)] on line 39 writes
    the square's line and not the circle's.  The same holds for the bare
    sequence: wrap [Circle(230)], wrap [Square(230)], draw the circle Shape,
    copy-assign the square Shape over it, draw it again.  The text of the
    number is the library's; with [230] printed as [230] the line is
    [Square: 230]. *)
Theorem second_draw_is_square `{NumPut} :
  put_double 230 = "230" →
  (∃ σ σ',
     main_until_assign start = Done tt σ ∧
     cout σ = "Circle: 230" ++ newline ++ "copy ctor" ++ newline ++ "copy assign" ++ newline ∧
     draw circle σ = Done tt σ' ∧
     cout σ' = cout σ ++ "Square: 230" ++ newline ∧
     cout σ' = cout σ ++ rendered (Square_ctor 230) ∧
     cout σ' ≠ cout σ ++ rendered (Circle_ctor 230)) ∧
  (∃ τ τ',
     run [wrap circle rvalue (ShapeModel (Circle_ctor 230));
          wrap square rvalue (ShapeModel (Square_ctor 230));
          render circle;
          copy_assign circle square] start = Done tt τ ∧
     cout τ = "Circle: 230" ++ newline ++ "copy assign" ++ newline ∧
     draw circle τ = Done tt τ' ∧
     cout τ' = cout τ ++ "Square: 230" ++ newline ∧
     cout τ' = cout τ ++ rendered (Square_ctor 230) ∧
     cout τ' ≠ cout τ ++ rendered (Circle_ctor 230)).
Proof.
  intros Hfmt. split.
  - eexists _, _. split; [vm_compute; reflexivity|].
    split; [vm_compute; vm_compute in Hfmt; rewrite Hfmt; reflexivity|].
    split; [vm_compute; reflexivity|].
    repeat split; vm_compute; vm_compute in Hfmt; rewrite Hfmt; [reflexivity..|discriminate].
  - eexists _, _. split; [vm_compute; reflexivity|].
    split; [vm_compute; vm_compute in Hfmt; rewrite Hfmt; reflexivity|].
    split; [vm_compute; reflexivity|].
    repeat split; vm_compute; vm_compute in Hfmt; rewrite Hfmt; [reflexivity..|discriminate].
Qed.

(** The reference [NumPut] prints [230.0] as [230]. *)
Lemma second_draw_is_square_witness :
  printf_g 230%float = "230" ∧
  (∃ σ σ',
     @main_until_assign printf_g start = Done tt σ ∧
     cout σ = "Circle: 230" ++ newline ++ "copy ctor" ++ newline ++ "copy assign" ++ newline ∧
     draw circle σ = Done tt σ' ∧
     cout σ' = cout σ ++ "Square: 230" ++ newline ∧
     cout σ' = cout σ ++ @rendered _ (@drawShape_Square printf_g) (Square_ctor 230) ∧
     cout σ' ≠ cout σ ++ @rendered _ (@drawShape_Circle printf_g) (Circle_ctor 230)) ∧
  (∃ τ τ',
     run [wrap circle rvalue circle_230; wrap square rvalue square_230;
          render circle; copy_assign circle square] start = Done tt τ ∧
     cout τ = "Circle: 230" ++ newline ++ "copy assign" ++ newline ∧
     draw circle τ = Done tt τ' ∧
     cout τ' = cout τ ++ "Square: 230" ++ newline ∧
     cout τ' = cout τ ++ @rendered _ (@drawShape_Square printf_g) (Square_ctor 230) ∧
     cout τ' ≠ cout τ ++ @rendered _ (@drawShape_Circle printf_g) (Circle_ctor 230)).
Proof.
  assert (H1 : printf_g 230%float = "230") by reflexivity.
  split; [exact H1|].
  exact (@second_draw_is_square printf_g H1).
Defined.

(** What the three overloads write is appended to the stream. *)
Lemma drawShape_Circle_appends `{NumPut} (c : Circle) (os : ostream) :
  drawShape c os = os ++ rendered c.
Proof.
  unfold rendered, drawShape, drawShape_Circle, endl, put_string.
  by rewrite !append_assoc.
Qed.

Lemma drawShape_Square_appends `{NumPut} (s : Square) (os : ostream) :
  drawShape s os = os ++ rendered s.
Proof.
  unfold rendered, drawShape, drawShape_Square, endl, put_string.
  by rewrite !append_assoc.
Qed.

Lemma drawShape_Triangle_appends (t : Triangle) (os : ostream) :
  drawShape t os = os ++ rendered t.
Proof.
  unfold rendered, drawShape, drawShape_Triangle, endl, put_string.
  by rewrite !append_assoc.
Qed.

(** ** Vectors of Shapes *)

Lemma Forall2_and_r {A B} (P : A → B → Prop) (Q : B → Prop) l k :
  Forall2 P l k → Forall Q k → Forall2 (λ x y, P x y ∧ Q y) l k.
Proof.
  induction 1 as [|x y l k HP _ IH]; intros HQ; [constructor|].
  apply Forall_cons in HQ as [Hy HQ]. constructor; auto.
Qed.

Lemma held_elem_of σ shapes lms b :
  Forall2 (held σ) shapes lms → b ∈ shapes → is_Some (objects σ !! b).
Proof.
  induction 1 as [|a lm shapes lms [Ha _] _ IH]; intros Hb.
  - by apply elem_of_nil in Hb.
  - apply elem_of_cons in Hb as [->|Hb]; eauto.
Qed.

(** Relocation hands the element's holder to the Shape at the new address
    and touches nothing else. *)
Lemma relocate_holds σ a l m :
  holds σ a l m →
  ∃ a' σ',
    relocate a σ = Done a' σ' ∧
    holds σ' a' l m ∧ objects σ !! a' = None ∧
    heap σ' = heap σ ∧ cout σ' = cout σ ∧ specials σ' = specials σ ∧
    (∀ b lb mb, b ≠ a → holds σ b lb mb → holds σ' b lb mb).
Proof.
  intros [Ha Hl]. set (a' := fresh (dom (objects σ))).
  assert (Ha' : objects σ !! a' = None) by apply fresh_objects.
  assert (Hne : a' ≠ a) by (intros Heq; rewrite Heq in Ha'; congruence).
  exists a'. eexists. split.
  { unfold relocate, storage, bind. fold a'.
    rewrite (Shape_move_ctor_eq σ a' a _ Ha).
    unfold Shape_dtor, bind, get_pimpl. cbn [objects with_objects].
    rewrite lookup_insert_ne by done. rewrite lookup_insert_eq. reflexivity. }
  split; [|split; [done|]].
  - split; cbn [objects heap with_objects]; [|done].
    rewrite lookup_delete_ne by done. apply lookup_insert_eq.
  - do 3 (split; [reflexivity|]).
    intros b lb mb Hb [Hbo Hbl]. split; cbn [objects heap with_objects]; [|done].
    rewrite lookup_delete_ne by done.
    rewrite lookup_insert_ne by (intros <-; congruence).
    by rewrite lookup_insert_ne.
Qed.

Lemma relocate_all_holds shapes lms : ∀ σ,
  Forall2 (held σ) shapes lms →
  NoDup lms.*1 →
  ∃ shapes' σ',
    relocate_all shapes σ = Done shapes' σ' ∧
    Forall2 (held σ') shapes' lms ∧
    heap σ' = heap σ ∧ cout σ' = cout σ ∧ specials σ' = specials σ ∧
    (∀ b lb mb, b ∉ shapes → holds σ b lb mb → holds σ' b lb mb).
Proof.
  revert lms. induction shapes as [|a rest IH]; intros lms σ Hheld Hnodup.
  - apply Forall2_nil_inv_l in Hheld as ->. exists [], σ.
    split; [reflexivity|]. split; [constructor|]. do 3 (split; [reflexivity|]). auto.
  - apply Forall2_cons_inv_l in Hheld as ([l m] & lms' & Ha & Hrest & ->).
    cbn [fmap list_fmap fst] in Hnodup. apply NoDup_cons in Hnodup as [Hl Hnodup].
    destruct (relocate_holds σ a l m Ha) as (a' & σ1 & E1 & Ha' & Hfresh & Hh1 & Hc1 & Hs1 & F1).
    assert (Hrest1 : Forall2 (held σ1) rest lms').
    { assert (HQ : Forall (λ lm : positive * ShapeConcept, lm.1 ≠ l) lms').
      { apply Forall_forall. intros [lb mb] Hin Heq. simpl in Heq. subst lb.
        apply Hl. apply list_elem_of_fmap. by exists (l, mb). }
      eapply Forall2_impl; [exact (Forall2_and_r _ _ _ _ Hrest HQ)|].
      intros b [lb mb] [Hb Hlb]. apply F1; [|exact Hb].
      intros ->. destruct Ha as [Ha _], Hb as [Hb _]. simpl in *. congruence. }
    destruct (IH lms' σ1 Hrest1 Hnodup) as (rest' & σ2 & E2 & Hrest2 & Hh2 & Hc2 & Hs2 & F2).
    exists (a' :: rest'), σ2. split.
    { cbn [relocate_all]. unfold bind, ret. by rewrite E1, E2. }
    split; [|do 3 (split; [congruence|])].
    + constructor; [|done]. apply F2; [|exact Ha'].
      intros Hin. destruct (held_elem_of _ _ _ _ Hrest Hin) as [? ?]. congruence.
    + intros b lb mb Hb Hholds. apply not_elem_of_cons in Hb as [Hba Hbrest].
      apply F2; [done|]. by apply F1.
Qed.

(** [emplace_back], whether or not the storage is full: the elements hold
    what they held, in the same order, the new last element holds the value
    it was built from, and nothing is printed. *)
Lemma emplace_back_holds `{Growth} {T} `{Drawable T} (shapes : vector) (x : T) lms σ :
  Forall2 (held σ) (elements shapes) lms →
  NoDup lms.*1 →
  ∃ shapes' σ' l,
    emplace_back shapes x σ = Done shapes' σ' ∧
    Forall2 (held σ') (elements shapes') (app lms [(l, ShapeModel x)]) ∧
    NoDup (app lms [(l, ShapeModel x)]).*1 ∧
    cout σ' = cout σ.
Proof.
  intros Hheld Hnodup.
  set (this := fresh (dom (objects σ))). set (lf := fresh (dom (heap σ))).
  pose (σ1 := State (<[this := mkShape (Some lf)]> (objects σ))
                    (<[lf := ShapeModel x]> (heap σ)) (cout σ)
                    (app (specials σ) [copy_constructed])).
  assert (Hnew : holds σ1 this lf (ShapeModel x)).
  { split; cbn [σ1 objects heap]; apply lookup_insert_eq. }
  assert (Hframe : ∀ b lb mb, holds σ b lb mb → holds σ1 b lb mb).
  { intros b lb mb [Hb Hlb]. split; cbn [σ1 objects heap].
    - rewrite lookup_insert_ne; [done|]. intros <-. unfold this in Hb.
      by rewrite fresh_objects in Hb.
    - rewrite lookup_insert_ne; [done|]. apply not_eq_sym, fresh_heap_ne. eauto. }
  assert (Hheld1 : Forall2 (held σ1) (elements shapes) lms).
  { eapply Forall2_impl; [exact Hheld|]. intros b [lb mb]. apply Hframe. }
  assert (Hthis : this ∉ elements shapes).
  { intros Hin. destruct (held_elem_of _ _ _ _ Hheld Hin) as [sh Hsh].
    unfold this in Hsh. by rewrite fresh_objects in Hsh. }
  assert (Hnodup' : NoDup (app lms [(lf, ShapeModel x)]).*1).
  { rewrite fmap_app. apply NoDup_app. split; [done|]. split; [|apply NoDup_singleton].
    intros l Hl Hlf. apply list_elem_of_singleton in Hlf. simpl in Hlf. subst l.
    apply list_elem_of_fmap in Hl as ([l m] & Heq & Hin). simpl in Heq. subst l.
    apply list_elem_of_lookup in Hin as [i Hi].
    destruct (Forall2_lookup_r _ _ _ _ _ Hheld Hi) as (b & _ & [_ Hb]).
    simpl in Hb. unfold lf in Hb. by rewrite fresh_heap in Hb. }
  unfold emplace_back. destruct (length (elements shapes) <? capacity shapes)%nat.
  - eexists _, σ1, lf. split; [reflexivity|]. cbn [elements].
    split; [|done]. apply Forall2_app; [done|]. by constructor.
  - destruct (relocate_all_holds _ _ σ1 Hheld1 Hnodup)
      as (moved & σ2 & E2 & Hmoved & _ & Hc2 & _ & F2).
    eexists _, σ2, lf. split.
    { cbv [bind storage ret]. rewrite Shape_ctor_eq. fold this lf.
      unfold σ1 in E2. rewrite E2. reflexivity. }
    cbn [elements]. split; [|split; [done|by rewrite Hc2]].
    apply Forall2_app; [done|]. constructor; [|constructor]. by apply F2.
Qed.

(** Drawing every element in turn runs the holders' [draw]s in the order of
    the elements. *)
Lemma for_each_draw shapes lms : ∀ σ,
  Forall2 (held σ) shapes lms →
  for_each draw shapes σ =
  Done tt (with_cout (λ os, foldl (λ os lm, ShapeModel_draw lm.2 os) os lms) σ).
Proof.
  revert lms. induction shapes as [|a rest IH]; intros lms σ Hheld.
  - apply Forall2_nil_inv_l in Hheld as ->. by destruct σ.
  - apply Forall2_cons_inv_l in Hheld as ([l m] & lms' & Ha & Hrest & ->).
    cbn [for_each]. unfold bind. rewrite (draw_eq σ a l m Ha).
    by rewrite (IH lms' (with_cout (ShapeModel_draw m) σ) Hrest).
Qed.

(** C6. From any state, for any circle, square and triangle (the circle of
    radius 230, the square of side 230 and the default triangle among them)
    and whatever the growth policy of the vector: filling an empty vector by
    three calls of [emplace_back] prints nothing and leaves three elements,
    and [drawAllShaped] on it then appends exactly three texts to
    [std::cout], in insertion order: what [drawShape] writes for the circle,
    for the square and for the triangle.  The three texts differ pairwise. *)
Theorem drawAllShaped_in_insertion_order `{NumPut} `{Growth}
    (c : Circle) (s : Square) (t : Triangle) (σ : state) :
  ∃ shapes σ1 σ2,
    make_shapes c s t σ = Done shapes σ1 ∧
    length (elements shapes) = 3 ∧
    cout σ1 = cout σ ∧
    drawAllShaped shapes σ1 = Done tt σ2 ∧
    cout σ2 = drawShape t (drawShape s (drawShape c (cout σ))) ∧
    cout σ2 = cout σ ++ rendered c ++ rendered s ++ rendered t ∧
    rendered c ≠ rendered s ∧ rendered c ≠ rendered t ∧ rendered s ≠ rendered t.
Proof.
  destruct (emplace_back_holds (Vector [] 0) c [] σ) as (v1 & τ1 & l1 & E1 & H1 & N1 & C1);
    [constructor|constructor|].
  destruct (emplace_back_holds v1 s _ τ1 H1 N1) as (v2 & τ2 & l2 & E2 & H2 & N2 & C2).
  destruct (emplace_back_holds v2 t _ τ2 H2 N2) as (v3 & τ3 & l3 & E3 & H3 & N3 & C3).
  exists v3, τ3. eexists. split.
  { unfold make_shapes, bind, ret. rewrite E1, E2. exact E3. }
  split; [by rewrite (Forall2_length _ _ _ H3)|].
  split; [congruence|]. split; [exact (for_each_draw _ _ τ3 H3)|].
  cbn [cout with_cout app foldl snd]. unfold ShapeModel_draw. cbn [T T_drawShape object].
  rewrite C3, C2, C1. split; [done|]. split.
  { rewrite drawShape_Triangle_appends, drawShape_Square_appends, drawShape_Circle_appends.
    by rewrite !append_assoc. }
  repeat split; discriminate.
Qed.

(** ** Construction from a value *)

(** C7. Construction of a Shape from a value always ends, with the Shape
    holding that value, whether the argument is an lvalue or a temporary.  But
    a temporary is not moved into the holder: the parameter [T const &x]
    makes [make_unique] select [ShapeModel(T const&)], so the held object is
    copy-constructed in both cases, and the two constructions are the same
    computation.  [ShapeModel(T&&)], which would move-construct it, is the
    overload an rvalue argument selects, and [Shape] never passes one. *)
Theorem Shape_ctor_copies_temporaries {T} `{Drawable T} (v : T) (this : positive) (σ : state) :
  (∀ k, ∃ σ' l, Shape_ctor this k v σ = Done tt σ' ∧ holds σ' this l (ShapeModel v)) ∧
  (∃ σ', Shape_ctor this rvalue v σ = Done tt σ' ∧
         specials σ' = app (specials σ) [copy_constructed]) ∧
  Shape_ctor this rvalue v σ = Shape_ctor this const_lvalue v σ ∧
  (∃ σ' l, (p <- make_unique rvalue v ;; set_pimpl this p) σ = Done tt σ' ∧
           holds σ' this l (ShapeModel v) ∧
           specials σ' = app (specials σ) [move_constructed]).
Proof.
  split; [|split; [|split]].
  - intros k. rewrite Shape_ctor_eq. eexists _, _. split; [done|].
    split; cbn [objects heap]; apply lookup_insert_eq.
  - rewrite Shape_ctor_eq. by eexists.
  - reflexivity.
  - eexists _, _. split; [reflexivity|]. split; [|done].
    split; cbn [objects heap]; apply lookup_insert_eq.
Qed.

(** ** The whole program *)

(** With the reference [NumPut], [main] runs to completion and prints nine
    lines. *)
Example main_output :
  cout <$> final (@main printf_g doubling start) =
  Some ("Circle: 230" ++ newline ++ "copy ctor" ++ newline ++ "copy assign" ++ newline ++
        "Square: 230" ++ newline ++ "Square: 230" ++ newline ++ "Circle: 230" ++ newline ++
        "Circle: 2" ++ newline ++ "Square: 2" ++ newline ++ "Δ" ++ newline).
Proof. reflexivity. Qed.

(** [main] copy-constructs a held object seven times (two wraps at the top,
    one copy construction, one copy assignment, three wraps in the vector)
    and never move-constructs one. *)
Example main_specials :
  specials <$> final (@main printf_g doubling start) = Some (repeat copy_constructed 7).
Proof. reflexivity. Qed.

(** When [main] returns every Shape has been destroyed and no holder is
    left on the heap. *)
Example main_releases_everything :
  (λ σ, (objects σ, heap σ)) <$> final (@main printf_g doubling start) = Some (∅, ∅).
Proof. reflexivity. Qed.

(** * Further properties of the wrapper *)

(** ** Ownership over whole runs *)

(** X1. Exclusive ownership is an invariant of the wrapper: in every state
    reached from program start by any sequence of [Shape]'s operations that
    runs to completion, each non-null [pimpl] points to a live holder and no
    two Shapes point to the same holder. *)
Theorem exclusive_ownership_invariant (cs : list call) (σ : state) :
  run cs start = Done tt σ → wf σ.
Proof. intros Hrun. exact (run_wf cs start σ wf_start Hrun). Qed.

(** The invariant on lines 33 and 34 of [main.cpp]. *)
Lemma exclusive_ownership_invariant_witness :
  run two_wraps start = Done tt (after two_wraps) ∧ wf (after two_wraps).
Proof.
  assert (H1 : run two_wraps start = Done tt (after two_wraps)) by reflexivity.
  split; [exact H1|]. exact (exclusive_ownership_invariant two_wraps (after two_wraps) H1).
Defined.

(** One call never orphans a holder. *)
Lemma exec_no_leak c σ σ' :
  wf σ → no_leak σ → proper σ c → exec c σ = Done tt σ' → no_leak σ'.
Proof.
  intros Hwf Hleak Hproper Hc l [m Hl].
  destruct c; cbn [exec proper] in Hc, Hproper.
  - rewrite Shape_ctor_eq in Hc. injection Hc as <-. cbn [objects heap] in *.
    rewrite lookup_insert in Hl. case_decide as Hlf.
    + subst l. exists this. apply lookup_insert_eq.
    + destruct (Hleak l (mk_is_Some _ _ Hl)) as [a Ha]. exists a.
      rewrite lookup_insert_ne; [done|]. intros <-. congruence.
  - destruct (Shape_copy_ctor_inv _ _ _ _ Hc) as (ls & ms & Hs).
    rewrite (Shape_copy_ctor_eq _ _ _ _ _ Hs) in Hc. injection Hc as <-.
    cbn [objects heap] in *.
    rewrite lookup_insert in Hl. case_decide as Hlf.
    + subst l. exists this. apply lookup_insert_eq.
    + destruct (Hleak l (mk_is_Some _ _ Hl)) as [a Ha]. exists a.
      rewrite lookup_insert_ne; [done|]. intros <-. congruence.
  - destruct (Shape_copy_assign_inv _ _ _ _ Hc) as (ls & ms & old & Hs & Hthis).
    rewrite (Shape_copy_assign_eq _ _ _ _ _ _ Hs Hthis (wf_old _ _ _ Hwf Hthis)) in Hc.
    injection Hc as <-. cbn [objects heap] in *.
    rewrite lookup_released in Hl. case_decide as Hold; [done|].
    rewrite lookup_insert in Hl. case_decide as Hlf.
    + subst l. exists this. apply lookup_insert_eq.
    + destruct (Hleak l (mk_is_Some _ _ Hl)) as [a Ha]. exists a.
      rewrite lookup_insert_ne; [done|]. intros <-. congruence.
  - destruct (Shape_move_ctor_inv _ _ _ _ Hc) as (p & Hs).
    rewrite (Shape_move_ctor_eq _ _ _ _ Hs) in Hc. injection Hc as <-.
    cbn [objects heap with_objects] in *.
    destruct (Hleak l (mk_is_Some _ _ Hl)) as [a Ha].
    destruct (decide (a = s)) as [->|Has].
    + exists this. rewrite lookup_insert_eq. congruence.
    + exists a. rewrite lookup_insert_ne by (intros <-; congruence).
      by rewrite lookup_insert_ne.
  - destruct (Shape_move_assign_inv _ _ _ _ Hc) as (p & old & Hs & Hthis).
    destruct (decide (this = s)) as [->|Hne].
    + rewrite (Shape_move_assign_self _ _ _ Hs) in Hc. injection Hc as <-.
      cbn [objects heap with_objects] in *.
      destruct (Hleak l (mk_is_Some _ _ Hl)) as [a Ha]. exists a.
      rewrite insert_insert_eq. destruct (decide (a = s)) as [->|Has].
      * rewrite lookup_insert_eq. congruence.
      * by rewrite lookup_insert_ne.
    + rewrite (Shape_move_assign_eq _ _ _ _ _ Hne Hs Hthis (wf_old _ _ _ Hwf Hthis)) in Hc.
      injection Hc as <-. cbn [objects heap] in *.
      rewrite lookup_released in Hl. case_decide as Hold; [done|].
      destruct (Hleak l (mk_is_Some _ _ Hl)) as [a Ha].
      destruct (decide (a = s)) as [->|Has].
      * exists this. rewrite lookup_insert_eq. congruence.
      * exists a. rewrite lookup_insert_ne by (intros <-; congruence).
        by rewrite lookup_insert_ne.
  - destruct (draw_inv _ _ _ Hc) as (la & ma & Hs).
    rewrite (draw_eq _ _ _ _ Hs) in Hc. injection Hc as <-.
    apply Hleak. eauto.
  - destruct (Shape_dtor_inv _ _ _ Hc) as (p & Hthis).
    rewrite (Shape_dtor_eq _ _ _ Hthis (wf_old _ _ _ Hwf Hthis)) in Hc.
    injection Hc as <-. cbn [objects heap] in *.
    rewrite lookup_released in Hl. case_decide as Hold; [done|].
    destruct (Hleak l (mk_is_Some _ _ Hl)) as [a Ha]. exists a.
    rewrite lookup_delete_ne; [done|]. intros <-. congruence.
Qed.

Lemma run_no_leak cs : ∀ σ σ',
  wf σ → no_leak σ → proper_run σ cs → run cs σ = Done tt σ' → no_leak σ'.
Proof.
  induction cs as [|c cs IH]; intros σ σ' Hwf Hleak Hproper Hrun.
  - by injection Hrun as <-.
  - apply run_cons in Hrun as (σ1 & Hc & Hrun).
    cbn [proper_run] in Hproper. rewrite Hc in Hproper. destruct Hproper as [Hp Hrest].
    eapply (IH σ1); eauto using exec_wf, exec_no_leak.
Qed.

(** X2. No holder is leaked.  When every constructor of a run from program
    start is given raw storage, each holder on the heap is owned by a live
    Shape in the state reached; so once every Shape has been destroyed the
    heap is empty. *)
Theorem no_holder_is_leaked (cs : list call) (σ : state) :
  proper_run start cs →
  run cs start = Done tt σ →
  no_leak σ ∧ (objects σ = ∅ → heap σ = ∅).
Proof.
  intros Hproper Hrun.
  assert (Hleak : no_leak σ).
  { apply (run_no_leak cs start σ wf_start); [|done..].
    intros l [m Hm]. unfold start in Hm. cbn [heap] in Hm. by rewrite lookup_empty in Hm. }
  split; [done|]. intros Hempty. apply map_empty. intros l.
  destruct (heap σ !! l) as [m|] eqn:Hl; [|done].
  destruct (Hleak l (mk_is_Some _ _ Hl)) as [a Ha].
  rewrite Hempty, lookup_empty in Ha. done.
Qed.

(** The Shapes of [main] up to the assignment, then destroyed: nothing is
    left on the heap. *)
Lemma no_holder_is_leaked_witness :
  proper_run start lifetimes ∧
  run lifetimes start = Done tt (after lifetimes) ∧
  no_leak (after lifetimes) ∧ (objects (after lifetimes) = ∅ → heap (after lifetimes) = ∅).
Proof.
  assert (H1 : proper_run start lifetimes) by (vm_compute; repeat split).
  assert (H2 : run lifetimes start = Done tt (after lifetimes)) by reflexivity.
  split; [exact H1|]. split; [exact H2|].
  exact (no_holder_is_leaked lifetimes (after lifetimes) H1 H2).
Defined.

(** ** The moved-from state *)

(** X3. A moved-from Shape can be destroyed and can be assigned to.  Its
    destructor deletes nothing; copy assignment or move assignment from a
    Shape holding [m] makes it hold [m] again, after which drawing it is
    defined and runs [m]'s [drawShape]. *)
Theorem moved_from_is_destructible_and_assignable
    (σ : state) (a s l : positive) (m : ShapeConcept) :
  wf σ →
  moved_from σ a →
  holds σ s l m →
  Shape_dtor a σ = Done tt (with_objects (delete a) σ) ∧
  (∃ σ' l', Shape_copy_assign a s σ = Done tt σ' ∧ holds σ' a l' m ∧ holds σ' s l m ∧
            draw a σ' = Done tt (with_cout (ShapeModel_draw m) σ')) ∧
  (∃ σ', Shape_move_assign a s σ = Done tt σ' ∧ holds σ' a l m ∧ moved_from σ' s ∧
         heap σ' = heap σ ∧
         draw a σ' = Done tt (with_cout (ShapeModel_draw m) σ')).
Proof.
  intros Hwf Ha Hs. unfold moved_from in Ha. pose proof Hs as [Hso Hsh].
  assert (Hne : a ≠ s) by (intros ->; congruence).
  split; [|split].
  - rewrite (Shape_dtor_eq σ a None Ha); [by destruct σ|done].
  - rewrite (Shape_copy_assign_eq σ a s l m None Hs Ha) by done.
    assert (Hnew := holds_after_copy_assign σ a m None
                      (endl (put_string (cout σ) "copy assign"))
                      (app (specials σ) [copy_constructed]) Hwf (or_introl eq_refl)).
    eexists _, _. split; [done|]. split; [exact Hnew|]. split.
    + split; cbn [objects heap released].
      * by rewrite lookup_insert_ne.
      * rewrite lookup_insert_ne; [done|]. apply not_eq_sym, fresh_heap_ne. eauto.
    + by apply (draw_eq _ a (fresh (dom (heap σ))) m).
  - rewrite (Shape_move_assign_eq σ a s _ None Hne Hso Ha) by done.
    assert (Hnew : holds (State (<[a:=mkShape (Some l)]> (<[s:=mkShape None]> (objects σ)))
                            (released None (heap σ)) (cout σ) (specials σ)) a l m).
    { split; cbn [objects heap released]; [apply lookup_insert_eq|done]. }
    eexists. split; [done|]. split; [exact Hnew|]. split; [|split; [done|]].
    + unfold moved_from. cbn [objects]. rewrite lookup_insert_ne by done.
      apply lookup_insert_eq.
    + by apply (draw_eq _ a l m).
Qed.

(** The circle Shape of [main] once moved from, and the square Shape. *)
Lemma moved_from_is_destructible_and_assignable_witness :
  wf (after moved_out) ∧
  moved_from (after moved_out) circle ∧
  holds (after moved_out) square 1 square_230 ∧
  Shape_dtor circle (after moved_out) = Done tt (with_objects (delete circle) (after moved_out)) ∧
  (∃ σ' l', Shape_copy_assign circle square (after moved_out) = Done tt σ' ∧
            holds σ' circle l' square_230 ∧ holds σ' square 1 square_230 ∧
            draw circle σ' = Done tt (with_cout (ShapeModel_draw square_230) σ')) ∧
  (∃ σ', Shape_move_assign circle square (after moved_out) = Done tt σ' ∧
         holds σ' circle 1 square_230 ∧ moved_from σ' square ∧
         heap σ' = heap (after moved_out) ∧
         draw circle σ' = Done tt (with_cout (ShapeModel_draw square_230) σ')).
Proof.
  assert (H1 : wf (after moved_out)) by (apply (run_wf moved_out start); [apply wf_start|reflexivity]).
  assert (H2 : moved_from (after moved_out) circle) by reflexivity.
  assert (H3 : holds (after moved_out) square 1 square_230) by (split; reflexivity).
  split; [exact H1|]. split; [exact H2|]. split; [exact H3|].
  exact (moved_from_is_destructible_and_assignable (after moved_out) circle square 1
           square_230 H1 H2 H3).
Defined.

(** X4. Copying from a moved-from Shape is undefined.  For a live source
    the copy constructor, whatever storage it constructs into, ends exactly
    when the source's [pimpl] is non-null, and so does copy assignment to a
    live target: [s.pimpl->clone()] is as unchecked as the dereference in
    [draw]. *)
Theorem copy_needs_a_held_value (σ : state) (s : positive) (p : unique_ptr) :
  wf σ →
  objects σ !! s = Some (mkShape p) →
  (pimpl_clone s σ = Undefined ↔ p = None) ∧
  (∀ this, Shape_copy_ctor this s σ = Undefined ↔ p = None) ∧
  (∀ this old, objects σ !! this = Some (mkShape old) →
     (Shape_copy_assign this s σ = Undefined ↔ p = None)).
Proof.
  intros Hwf Hs.
  assert (Hnull : p = None →
    pimpl_clone s σ = Undefined ∧
    (∀ this, Shape_copy_ctor this s σ = Undefined) ∧
    (∀ this, Shape_copy_assign this s σ = Undefined)).
  { intros ->. unfold Shape_copy_ctor, Shape_copy_assign, pimpl_clone, bind, get_pimpl.
    rewrite Hs. done. }
  assert (Hsome : ∀ l, p = Some l →
    pimpl_clone s σ ≠ Undefined ∧
    (∀ this, Shape_copy_ctor this s σ ≠ Undefined) ∧
    (∀ this old, objects σ !! this = Some (mkShape old) →
       Shape_copy_assign this s σ ≠ Undefined)).
  { intros l ->. destruct (wf_live _ Hwf _ _ Hs) as [m Hm]. split; [|split].
    - unfold pimpl_clone, bind, get_pimpl, deref. rewrite Hs. simpl. rewrite Hm. done.
    - intros this. by rewrite (Shape_copy_ctor_eq σ this s l m (conj Hs Hm)).
    - intros this old Hthis.
      by rewrite (Shape_copy_assign_eq σ this s l m old (conj Hs Hm) Hthis
                    (wf_old _ _ _ Hwf Hthis)). }
  destruct p as [l|].
  - destruct (Hsome l eq_refl) as (H1 & H2 & H3). split; [done|]. split.
    + intros this. specialize (H2 this). done.
    + intros this old Hthis. specialize (H3 this old Hthis). done.
  - destruct (Hnull eq_refl) as (H1 & H2 & H3). split; [done|]. split.
    + intros this. by rewrite H2.
    + intros this old _. by rewrite H3.
Qed.

(** Copying from the moved-from circle Shape of [main], into raw storage or
    over a live Shape. *)
Lemma copy_needs_a_held_value_witness :
  wf (after moved_out) ∧
  objects (after moved_out) !! circle = Some (mkShape None) ∧
  (pimpl_clone circle (after moved_out) = Undefined ↔ @None positive = None) ∧
  (∀ this, Shape_copy_ctor this circle (after moved_out) = Undefined ↔ @None positive = None) ∧
  (∀ this old, objects (after moved_out) !! this = Some (mkShape old) →
     (Shape_copy_assign this circle (after moved_out) = Undefined ↔ @None positive = None)).
Proof.
  assert (H1 : wf (after moved_out)) by (apply (run_wf moved_out start); [apply wf_start|reflexivity]).
  assert (H2 : objects (after moved_out) !! circle = Some (mkShape None)) by reflexivity.
  split; [exact H1|]. split; [exact H2|].
  exact (copy_needs_a_held_value (after moved_out) circle None H1 H2).
Defined.

(** A copy constructor given raw storage: from the square Shape of [main],
    which holds a value, it ends; from the moved-from circle Shape it is
    undefined. *)
Example copy_into_raw_storage :
  objects (after moved_out) !! 7%positive = None ∧
  (∃ σ', Shape_copy_ctor 7 square (after moved_out) = Done tt σ') ∧
  Shape_copy_ctor 7 circle (after moved_out) = Undefined.
Proof. split; [reflexivity|]. split; [by eexists|reflexivity]. Qed.

(** X5. Moving from a moved-from Shape is defined and hands emptiness on:
    move construction leaves both Shapes with a null [pimpl] and the heap as
    it was; move assignment deletes the holder the target owned and leaves
    both Shapes with a null [pimpl]. *)
Theorem moving_from_moved_from (σ : state) (this s : positive) :
  wf σ →
  moved_from σ s →
  this ≠ s →
  (∃ σ', Shape_move_ctor this s σ = Done tt σ' ∧
         moved_from σ' this ∧ moved_from σ' s ∧ heap σ' = heap σ) ∧
  (∀ l m, holds σ this l m →
     ∃ σ', Shape_move_assign this s σ = Done tt σ' ∧
           moved_from σ' this ∧ moved_from σ' s ∧ heap σ' = delete l (heap σ) ∧
           draw this σ' = Undefined).
Proof.
  intros Hwf Hs Hne. unfold moved_from in *. split.
  - rewrite (Shape_move_ctor_eq σ this s None Hs). eexists. split; [done|].
    cbn [objects heap with_objects]. split; [apply lookup_insert_eq|]. split; [|done].
    rewrite lookup_insert_ne by done. apply lookup_insert_eq.
  - intros l m [Hthis Hl].
    rewrite (Shape_move_assign_eq σ this s None (Some l) Hne Hs Hthis (wf_old _ _ _ Hwf Hthis)).
    eexists. split; [done|]. cbn [objects heap released].
    assert (Hnull : <[this:=mkShape None]> (<[s:=mkShape None]> (objects σ)) !! this
                    = Some (mkShape None)) by apply lookup_insert_eq.
    split; [done|]. split; [|split; [done|]].
    + rewrite lookup_insert_ne by done. apply lookup_insert_eq.
    + by apply draw_moved_from.
Qed.

(** From the moved-from circle Shape of [main] into the square Shape. *)
Lemma moving_from_moved_from_witness :
  wf (after moved_out) ∧
  moved_from (after moved_out) circle ∧
  square ≠ circle ∧
  (∃ σ', Shape_move_ctor square circle (after moved_out) = Done tt σ' ∧
         moved_from σ' square ∧ moved_from σ' circle ∧ heap σ' = heap (after moved_out)) ∧
  (∀ l m, holds (after moved_out) square l m →
     ∃ σ', Shape_move_assign square circle (after moved_out) = Done tt σ' ∧
           moved_from σ' square ∧ moved_from σ' circle ∧
           heap σ' = delete l (heap (after moved_out)) ∧
           draw square σ' = Undefined).
Proof.
  assert (H1 : wf (after moved_out)) by (apply (run_wf moved_out start); [apply wf_start|reflexivity]).
  assert (H2 : moved_from (after moved_out) circle) by reflexivity.
  assert (H3 : square ≠ circle) by discriminate.
  split; [exact H1|]. split; [exact H2|]. split; [exact H3|].
  exact (moving_from_moved_from (after moved_out) square circle H1 H2 H3).
Defined.

(** X6. Move assignment of a Shape to itself changes nothing: [release]
    empties the Shape, [reset] puts the same pointer back and finds nothing to
    delete.  The state afterwards is the state before, so a Shape that held a
    value still holds it. *)
Theorem self_move_assignment_is_identity (σ : state) (this : positive) (p : unique_ptr) :
  objects σ !! this = Some (mkShape p) →
  Shape_move_assign this this σ = Done tt σ.
Proof.
  intros Hthis. rewrite (Shape_move_assign_self σ this p Hthis). f_equal.
  destruct σ as [o h c es]. unfold with_objects. cbn [objects heap cout specials] in *.
  f_equal. rewrite insert_insert_eq. by apply insert_id.
Qed.

(** [circle = std::move(circle)] on the circle Shape of [main]. *)
Lemma self_move_assignment_is_identity_witness :
  objects (after two_wraps) !! circle = Some (mkShape (Some 2%positive)) ∧
  Shape_move_assign circle circle (after two_wraps) = Done tt (after two_wraps).
Proof.
  assert (H1 : objects (after two_wraps) !! circle = Some (mkShape (Some 2%positive)))
    by reflexivity.
  split; [exact H1|].
  exact (self_move_assignment_is_identity (after two_wraps) circle (Some 2%positive) H1).
Defined.

(** ** Destruction *)

(** X7. The destructor of a live Shape deletes exactly the holder the Shape
    owns (none for a moved-from Shape) and ends the Shape's lifetime; it
    prints nothing, keeps ownership exclusive and leaves every other Shape
    with its holder.  Using the Shape afterwards, or destroying it again, is
    undefined. *)
Theorem destructor_releases_own_holder (σ : state) (this : positive) (p : unique_ptr) :
  wf σ →
  objects σ !! this = Some (mkShape p) →
  ∃ σ',
    Shape_dtor this σ = Done tt σ' ∧
    objects σ' = delete this (objects σ) ∧
    heap σ' = released p (heap σ) ∧
    cout σ' = cout σ ∧ specials σ' = specials σ ∧
    wf σ' ∧
    (∀ l, p = Some l → heap σ' !! l = None) ∧
    (∀ b lb mb, b ≠ this → holds σ b lb mb → holds σ' b lb mb) ∧
    draw this σ' = Undefined ∧
    Shape_dtor this σ' = Undefined.
Proof.
  intros Hwf Hthis.
  pose proof (Shape_dtor_eq σ this p Hthis (wf_old _ _ _ Hwf Hthis)) as Heq.
  eexists. split; [exact Heq|]. cbn [objects heap cout specials].
  do 4 (split; [reflexivity|]). split; [by apply wf_destroy|]. split; [|split; [|split]].
  - intros l ->. cbn [released]. apply lookup_delete_eq.
  - intros b lb mb Hb Hholds.
    apply (exec_frame (destroy this) σ _ b lb mb Hwf Heq); [|done].
    cbn [written]. by apply not_elem_of_cons; split; [|apply not_elem_of_nil].
  - unfold draw, bind, get_pimpl. cbn [objects]. by rewrite lookup_delete_eq.
  - unfold Shape_dtor, bind, get_pimpl. cbn [objects]. by rewrite lookup_delete_eq.
Qed.

(** The circle Shape of [main] destroyed. *)
Lemma destructor_releases_own_holder_witness :
  wf (after two_wraps) ∧
  objects (after two_wraps) !! circle = Some (mkShape (Some 2%positive)) ∧
  ∃ σ',
    Shape_dtor circle (after two_wraps) = Done tt σ' ∧
    objects σ' = delete circle (objects (after two_wraps)) ∧
    heap σ' = released (Some 2%positive) (heap (after two_wraps)) ∧
    cout σ' = cout (after two_wraps) ∧ specials σ' = specials (after two_wraps) ∧
    wf σ' ∧
    (∀ l, Some 2%positive = Some l → heap σ' !! l = None) ∧
    (∀ b lb mb, b ≠ circle → holds (after two_wraps) b lb mb → holds σ' b lb mb) ∧
    draw circle σ' = Undefined ∧
    Shape_dtor circle σ' = Undefined.
Proof.
  assert (H1 : wf (after two_wraps)) by (apply (run_wf two_wraps start); [apply wf_start|reflexivity]).
  assert (H2 : objects (after two_wraps) !! circle = Some (mkShape (Some 2%positive)))
    by reflexivity.
  split; [exact H1|]. split; [exact H2|].
  exact (destructor_releases_own_holder (after two_wraps) circle (Some 2%positive) H1 H2).
Defined.

(** What the destructor leaves behind, for use in compositions. *)
Lemma destructor_frame σ this p :
  wf σ →
  objects σ !! this = Some (mkShape p) →
  ∃ σ',
    Shape_dtor this σ = Done tt σ' ∧
    heap σ' = released p (heap σ) ∧
    wf σ' ∧
    (∀ b lb mb, b ≠ this → holds σ b lb mb → holds σ' b lb mb).
Proof.
  intros Hwf Hthis.
  pose proof (Shape_dtor_eq σ this p Hthis (wf_old _ _ _ Hwf Hthis)) as Heq.
  eexists. split; [exact Heq|]. split; [done|]. split; [by apply wf_destroy|].
  intros b lb mb Hb Hholds.
  apply (exec_frame (destroy this) σ _ b lb mb Hwf Heq); [|done].
  cbn [written]. by apply not_elem_of_cons; split; [|apply not_elem_of_nil].
Qed.

(** X8. The target of a copy or of a move outlives its source.  After
    [w2] is copy-constructed or move-constructed from a Shape [w1] holding
    [m] and [w1] is then destroyed, [w2] still owns a live holder equal to
    [m] and drawing it runs [m]'s [drawShape]: the destructor of the source
    deletes the source's own holder after a copy and nothing after a move. *)
Theorem target_outlives_source (σ : state) (w1 w2 l : positive) (m : ShapeConcept) :
  wf σ →
  holds σ w1 l m →
  w2 ≠ w1 →
  (∃ σ' l', (Shape_copy_ctor w2 w1 ;; Shape_dtor w1) σ = Done tt σ' ∧
            holds σ' w2 l' m ∧ heap σ' !! l = None ∧ wf σ' ∧
            draw w2 σ' = Done tt (with_cout (ShapeModel_draw m) σ')) ∧
  (∃ σ', (Shape_move_ctor w2 w1 ;; Shape_dtor w1) σ = Done tt σ' ∧
         holds σ' w2 l m ∧ heap σ' = heap σ ∧ wf σ' ∧
         draw w2 σ' = Done tt (with_cout (ShapeModel_draw m) σ')).
Proof.
  intros Hwf Hw1 Hne. pose proof Hw1 as [Ho1 Hh1]. split.
  - pose proof (Shape_copy_ctor_eq σ w2 w1 l m Hw1) as Hcopy.
    set (σ1 := State _ _ _ _) in Hcopy.
    assert (Hwf1 : wf σ1) by (apply (exec_wf (copy_construct w2 w1) σ); done).
    assert (H1 : objects σ1 !! w1 = Some (mkShape (Some l))).
    { unfold σ1. cbn [objects]. by rewrite lookup_insert_ne. }
    assert (H2 : holds σ1 w2 (fresh (dom (heap σ))) m).
    { split; unfold σ1; cbn [objects heap]; apply lookup_insert_eq. }
    destruct (destructor_frame σ1 w1 (Some l) Hwf1 H1) as (σ' & Hd & Hheap & Hwf' & Hframe).
    exists σ', (fresh (dom (heap σ))). split; [unfold bind; by rewrite Hcopy|].
    assert (H2' : holds σ' w2 (fresh (dom (heap σ))) m) by (apply Hframe; done).
    split; [done|]. split; [|split; [done|by apply (draw_eq σ' w2 (fresh (dom (heap σ))) m)]].
    rewrite Hheap. cbn [released]. apply lookup_delete_eq.
  - pose proof (Shape_move_ctor_eq σ w2 w1 _ Ho1) as Hmove.
    set (σ1 := with_objects _ σ) in Hmove.
    assert (Hwf1 : wf σ1) by (apply (exec_wf (move_construct w2 w1) σ); done).
    assert (H1 : objects σ1 !! w1 = Some (mkShape None)).
    { unfold σ1. cbn [objects with_objects]. rewrite lookup_insert_ne by done.
      apply lookup_insert_eq. }
    assert (H2 : holds σ1 w2 l m).
    { split; unfold σ1; cbn [objects heap with_objects]; [apply lookup_insert_eq|done]. }
    destruct (destructor_frame σ1 w1 None Hwf1 H1) as (σ' & Hd & Hheap & Hwf' & Hframe).
    exists σ'. split; [unfold bind; by rewrite Hmove|].
    assert (H2' : holds σ' w2 l m) by (apply Hframe; done).
    split; [done|]. split; [by rewrite Hheap|]. split; [done|by apply (draw_eq σ' w2 l m)].
Qed.

(** After the circle Shape of [main] is copied or moved into the Shape
    [another_circle] and destroyed. *)
Lemma target_outlives_source_witness :
  wf (after two_wraps) ∧
  holds (after two_wraps) circle 2 circle_230 ∧
  another_circle ≠ circle ∧
  (∃ σ' l', (Shape_copy_ctor another_circle circle ;; Shape_dtor circle) (after two_wraps)
              = Done tt σ' ∧
            holds σ' another_circle l' circle_230 ∧ heap σ' !! 2%positive = None ∧ wf σ' ∧
            draw another_circle σ' = Done tt (with_cout (ShapeModel_draw circle_230) σ')) ∧
  (∃ σ', (Shape_move_ctor another_circle circle ;; Shape_dtor circle) (after two_wraps)
           = Done tt σ' ∧
         holds σ' another_circle 2 circle_230 ∧ heap σ' = heap (after two_wraps) ∧ wf σ' ∧
         draw another_circle σ' = Done tt (with_cout (ShapeModel_draw circle_230) σ')).
Proof.
  assert (H1 : wf (after two_wraps)) by (apply (run_wf two_wraps start); [apply wf_start|reflexivity]).
  assert (H2 : holds (after two_wraps) circle 2 circle_230) by (split; reflexivity).
  assert (H3 : another_circle ≠ circle) by discriminate.
  split; [exact H1|]. split; [exact H2|]. split; [exact H3|].
  exact (target_outlives_source (after two_wraps) circle another_circle 2 circle_230 H1 H2 H3).
Defined.

(** ** Drawing *)

Lemma draw_Done σ σ' a :
  draw a σ = Done tt σ' → ∃ l m, holds σ a l m ∧ σ' = with_cout (ShapeModel_draw m) σ.
Proof.
  intros Hd. destruct (draw_inv _ _ _ Hd) as (l & m & Ha). exists l, m. split; [done|].
  rewrite (draw_eq _ _ _ _ Ha) in Hd. by injection Hd as <-.
Qed.

Lemma for_each_cons (body : positive → M unit) a rest σ σ' :
  for_each body (a :: rest) σ = Done tt σ' →
  ∃ σ1, body a σ = Done tt σ1 ∧ for_each body rest σ1 = Done tt σ'.
Proof.
  cbn [for_each]. unfold bind. destruct (body a σ) as [[] σ1|]; [eauto|done].
Qed.

(** X9. [drawAllShaped] only reads the Shapes: when it ends, every Shape and
    every holder is as before and no constructor of a held type has run;
    [std::cout] alone has changed. *)
Theorem drawAllShaped_only_reads (shapes : vector) (σ σ' : state) :
  drawAllShaped shapes σ = Done tt σ' →
  objects σ' = objects σ ∧ heap σ' = heap σ ∧ specials σ' = specials σ.
Proof.
  unfold drawAllShaped. generalize (elements shapes). intros l. revert σ.
  induction l as [|a rest IH]; intros σ Hrun.
  - by injection Hrun as <-.
  - apply for_each_cons in Hrun as (σ1 & Hd & Hrest).
    apply draw_Done in Hd as (la & ma & _ & ->).
    destruct (IH _ Hrest) as (-> & -> & ->). done.
Qed.

(** On the vector of three Shapes. *)
Lemma drawAllShaped_only_reads_witness :
  drawAllShaped filled_vector filled_state
    = Done tt (state_of (drawAllShaped filled_vector filled_state)) ∧
  objects (state_of (drawAllShaped filled_vector filled_state)) = objects filled_state ∧
  heap (state_of (drawAllShaped filled_vector filled_state)) = heap filled_state ∧
  specials (state_of (drawAllShaped filled_vector filled_state)) = specials filled_state.
Proof.
  assert (H1 : drawAllShaped filled_vector filled_state
               = Done tt (state_of (drawAllShaped filled_vector filled_state))) by reflexivity.
  split; [exact H1|].
  exact (drawAllShaped_only_reads filled_vector filled_state _ H1).
Defined.

(** X10. [drawAllShaped] on a vector of any length whose elements hold
    values runs the holders' [draw]s one after the other in the order of the
    elements, and changes nothing but [std::cout]; on an empty vector it does
    nothing at all. *)
Theorem drawAllShaped_renders_in_order
    (shapes : vector) (lms : list (positive * ShapeConcept)) (σ : state) :
  Forall2 (held σ) (elements shapes) lms →
  drawAllShaped shapes σ =
    Done tt (with_cout (λ os, foldl (λ os lm, ShapeModel_draw lm.2 os) os lms) σ) ∧
  (elements shapes = [] → drawAllShaped shapes σ = Done tt σ).
Proof.
  intros Hheld. split.
  - exact (for_each_draw (elements shapes) lms σ Hheld).
  - unfold drawAllShaped. by intros ->.
Qed.

Lemma filled_elements : elements filled_vector = [5%positive; 6%positive; 4%positive].
Proof. reflexivity. Qed.

Lemma filled_held : Forall2 (held filled_state) (elements filled_vector) filled_holders.
Proof.
  rewrite filled_elements. unfold filled_holders.
  repeat constructor; reflexivity.
Qed.

(** On the vector of three Shapes. *)
Lemma drawAllShaped_renders_in_order_witness :
  Forall2 (held filled_state) (elements filled_vector) filled_holders ∧
  drawAllShaped filled_vector filled_state =
    Done tt (with_cout (λ os, foldl (λ os lm, ShapeModel_draw lm.2 os) os filled_holders)
               filled_state) ∧
  (elements filled_vector = [] → drawAllShaped filled_vector filled_state = Done tt filled_state).
Proof.
  split; [exact filled_held|].
  exact (drawAllShaped_renders_in_order filled_vector filled_holders filled_state filled_held).
Defined.

(** X11. [drawAllShaped] on a vector one of whose elements is moved-from is
    undefined, wherever the element stands: the elements before it are drawn
    or are undefined themselves, and drawing leaves the moved-from element as
    it is. *)
Theorem drawAllShaped_needs_held_values (shapes : vector) (σ : state) (a : positive) :
  a ∈ elements shapes →
  moved_from σ a →
  drawAllShaped shapes σ = Undefined.
Proof.
  unfold drawAllShaped. generalize (elements shapes). intros l. revert σ.
  induction l as [|b rest IH]; intros σ Hin Ha.
  - by apply elem_of_nil in Hin.
  - cbn [for_each]. unfold bind. destruct (draw b σ) as [[] σ1|] eqn:Hd; [|done].
    apply draw_Done in Hd as (lb & mb & Hb & ->).
    apply elem_of_cons in Hin as [->|Hin].
    + destruct Hb as [Hb _]. unfold moved_from in Ha. congruence.
    + by apply IH.
Qed.

(** On the vector of three Shapes after its first element was moved from. *)
Lemma drawAllShaped_needs_held_values_witness :
  5%positive ∈ elements filled_vector ∧
  moved_from emptied_state 5 ∧
  drawAllShaped filled_vector emptied_state = Undefined.
Proof.
  assert (H1 : 5%positive ∈ elements filled_vector) by (rewrite filled_elements; left).
  assert (H2 : moved_from emptied_state 5) by reflexivity.
  split; [exact H1|]. split; [exact H2|].
  exact (drawAllShaped_needs_held_values filled_vector emptied_state 5 H1 H2).
Defined.

(** ** Growing a vector of Shapes *)

(** X12. [emplace_back] never copies the Shapes already in the vector.
    Whether or not the storage is full, it adds one element built from its
    argument, keeps the others in order with the very holders they had,
    allocates exactly one holder, runs exactly one copy constructor of a held
    type (for the new element) and prints nothing: relocation uses [Shape]'s
    move constructor, so no [copy ctor] line appears.  The size grows by one
    and stays within the capacity. *)
Theorem emplace_back_moves_the_elements `{Growth} {T} `{Drawable T}
    (shapes : vector) (x : T) (lms : list (positive * ShapeConcept)) (σ : state) :
  Forall2 (held σ) (elements shapes) lms →
  NoDup lms.*1 →
  (length (elements shapes) ≤ capacity shapes)%nat →
  ∃ shapes' σ',
    emplace_back shapes x σ = Done shapes' σ' ∧
    length (elements shapes') = S (length (elements shapes)) ∧
    (length (elements shapes') ≤ capacity shapes')%nat ∧
    Forall2 (held σ') (elements shapes') (app lms [(fresh (dom (heap σ)), ShapeModel x)]) ∧
    heap σ' = <[fresh (dom (heap σ)) := ShapeModel x]> (heap σ) ∧
    specials σ' = app (specials σ) [copy_constructed] ∧
    cout σ' = cout σ.
Proof.
  intros Hheld Hnodup Hcap.
  set (this := fresh (dom (objects σ))). set (lf := fresh (dom (heap σ))).
  pose (σ1 := State (<[this := mkShape (Some lf)]> (objects σ))
                    (<[lf := ShapeModel x]> (heap σ)) (cout σ)
                    (app (specials σ) [copy_constructed])).
  assert (Hnew : held σ1 this (lf, ShapeModel x)).
  { split; cbn [σ1 objects heap fst snd]; apply lookup_insert_eq. }
  assert (Hheld1 : Forall2 (held σ1) (elements shapes) lms).
  { eapply Forall2_impl; [exact Hheld|]. intros b [lb mb] [Hb Hlb].
    split; cbn [σ1 objects heap fst snd] in *.
    - rewrite lookup_insert_ne; [done|]. intros <-. unfold this in Hb.
      by rewrite fresh_objects in Hb.
    - rewrite lookup_insert_ne; [done|]. apply not_eq_sym, fresh_heap_ne. eauto. }
  assert (Hthis : this ∉ elements shapes).
  { intros Hin. destruct (held_elem_of _ _ _ _ Hheld Hin) as [sh Hsh].
    unfold this in Hsh. by rewrite fresh_objects in Hsh. }
  pose proof (Forall2_length _ _ _ Hheld) as Hlen.
  unfold emplace_back.
  destruct (length (elements shapes) <? capacity shapes)%nat eqn:Hfull.
  - apply Nat.ltb_lt in Hfull.
    eexists _, σ1. split; [reflexivity|]. cbn [elements capacity].
    rewrite length_app. cbn [length].
    split; [lia|]. split; [lia|]. split; [|done].
    apply Forall2_app; [done|]. by constructor.
  - destruct (relocate_all_holds _ _ σ1 Hheld1 Hnodup)
      as (moved & σ2 & E2 & Hmoved & Hh2 & Hc2 & Hs2 & F2).
    pose proof (Forall2_length _ _ _ Hmoved) as Hlen2.
    eexists _, σ2. split.
    { cbv [bind storage ret]. rewrite Shape_ctor_eq. fold this lf.
      unfold σ1 in E2. rewrite E2. reflexivity. }
    cbn [elements capacity]. rewrite length_app. cbn [length].
    split; [lia|]. split; [lia|]. split; [|split; [done|split; [done|done]]].
    apply Forall2_app; [done|]. constructor; [|constructor].
    destruct Hnew as [Hn1 Hn2]. by apply (F2 this lf (ShapeModel x)).
Qed.

Lemma filled_nodup : NoDup filled_holders.*1.
Proof.
  cbn [filled_holders fmap list_fmap fst].
  repeat (apply NoDup_cons; split;
            [rewrite ?elem_of_cons, elem_of_nil; intuition discriminate|]).
  apply NoDup_nil_2.
Qed.

(** One more triangle added to the vector of three Shapes. *)
Lemma emplace_back_moves_the_elements_witness :
  Forall2 (held filled_state) (elements filled_vector) filled_holders ∧
  NoDup filled_holders.*1 ∧
  (length (elements filled_vector) ≤ capacity filled_vector)%nat ∧
  ∃ shapes' σ',
    @emplace_back doubling _ drawShape_Triangle filled_vector Triangle_ctor filled_state
      = Done shapes' σ' ∧
    length (elements shapes') = S (length (elements filled_vector)) ∧
    (length (elements shapes') ≤ capacity shapes')%nat ∧
    Forall2 (held σ') (elements shapes')
      (app filled_holders [(fresh (dom (heap filled_state)), ShapeModel Triangle_ctor)]) ∧
    heap σ' = <[fresh (dom (heap filled_state)) := ShapeModel Triangle_ctor]> (heap filled_state) ∧
    specials σ' = app (specials filled_state) [copy_constructed] ∧
    cout σ' = cout filled_state.
Proof.
  assert (H3 : (length (elements filled_vector) ≤ capacity filled_vector)%nat)
    by (vm_compute; lia).
  split; [exact filled_held|]. split; [exact filled_nodup|]. split; [exact H3|].
  exact (@emplace_back_moves_the_elements doubling _ drawShape_Triangle filled_vector
           Triangle_ctor filled_holders filled_state filled_held filled_nodup H3).
Defined.

(** ** Frames and counts over whole runs *)

(** X13. A sequence of operations none of which writes the Shape [a]
    (as target, or as source of a move) leaves [a] with its holder, at the
    same address and with the same content, so that [a] draws afterwards as
    it would have before. *)
Theorem untouched_shape_keeps_its_value
    (cs : list call) (σ σ' : state) (a l : positive) (m : ShapeConcept) :
  wf σ →
  run cs σ = Done tt σ' →
  (∀ c, c ∈ cs → a ∉ written c) →
  holds σ a l m →
  holds σ' a l m ∧ draw a σ' = Done tt (with_cout (ShapeModel_draw m) σ').
Proof.
  intros Hwf Hrun Hcs Ha.
  assert (Hholds : holds σ' a l m).
  { revert σ Hwf Hrun Ha. induction cs as [|c cs IH]; intros σ Hwf Hrun Ha.
    - by injection Hrun as <-.
    - apply run_cons in Hrun as (σ1 & Hc & Hrun).
      assert (Hrest : ∀ c', c' ∈ cs → a ∉ written c') by (intros c' Hin; apply Hcs; by right).
      apply (IH Hrest σ1).
      + by apply (exec_wf c σ).
      + done.
      + apply (exec_frame c σ σ1 a l m Hwf Hc); [|done]. apply Hcs. left. }
  split; [done|]. by apply (draw_eq σ' a l m).
Qed.

(** [main]'s square Shape while the circle Shape is drawn, assigned and
    destroyed. *)
Lemma untouched_shape_keeps_its_value_witness :
  wf (after two_wraps) ∧
  run [render circle; copy_assign circle square; destroy circle] (after two_wraps)
    = Done tt (state_of (run [render circle; copy_assign circle square; destroy circle]
                           (after two_wraps))) ∧
  (∀ c, c ∈ [render circle; copy_assign circle square; destroy circle] →
        square ∉ written c) ∧
  holds (after two_wraps) square 1 square_230 ∧
  holds (state_of (run [render circle; copy_assign circle square; destroy circle]
                     (after two_wraps))) square 1 square_230 ∧
  draw square (state_of (run [render circle; copy_assign circle square; destroy circle]
                           (after two_wraps)))
    = Done tt (with_cout (ShapeModel_draw square_230)
                 (state_of (run [render circle; copy_assign circle square; destroy circle]
                              (after two_wraps)))).
Proof.
  assert (H1 : wf (after two_wraps)) by (apply (run_wf two_wraps start); [apply wf_start|reflexivity]).
  assert (H2 : run [render circle; copy_assign circle square; destroy circle] (after two_wraps)
    = Done tt (state_of (run [render circle; copy_assign circle square; destroy circle]
                           (after two_wraps)))) by reflexivity.
  assert (H3 : ∀ c, c ∈ [render circle; copy_assign circle square; destroy circle] →
                    square ∉ written c).
  { intros c Hc Hin.
    repeat (apply elem_of_cons in Hc as [->|Hc]); cbn [written] in Hin;
      try (by apply elem_of_nil in Hc);
      repeat (apply elem_of_cons in Hin as [Hin|Hin]); try discriminate Hin;
      by apply elem_of_nil in Hin. }
  assert (H4 : holds (after two_wraps) square 1 square_230) by (split; reflexivity).
  split; [exact H1|]. split; [exact H2|]. split; [exact H3|]. split; [exact H4|].
  exact (untouched_shape_keeps_its_value _ _ _ square 1 square_230 H1 H2 H3 H4).
Defined.

(** What one call adds to the log of special member functions. *)
Lemma exec_specials c σ σ' :
  wf σ → exec c σ = Done tt σ' →
  specials σ' = app (specials σ) (repeat copy_constructed (copies c)).
Proof.
  intros Hwf Hc. destruct c; cbn [exec copies repeat] in *.
  - rewrite Shape_ctor_eq in Hc. by injection Hc as <-.
  - destruct (Shape_copy_ctor_inv _ _ _ _ Hc) as (ls & ms & Hs).
    rewrite (Shape_copy_ctor_eq _ _ _ _ _ Hs) in Hc. by injection Hc as <-.
  - destruct (Shape_copy_assign_inv _ _ _ _ Hc) as (ls & ms & old & Hs & Hthis).
    rewrite (Shape_copy_assign_eq _ _ _ _ _ _ Hs Hthis (wf_old _ _ _ Hwf Hthis)) in Hc.
    by injection Hc as <-.
  - destruct (Shape_move_ctor_inv _ _ _ _ Hc) as (p & Hs).
    rewrite (Shape_move_ctor_eq _ _ _ _ Hs) in Hc. injection Hc as <-.
    cbn [specials with_objects]. by rewrite app_nil_r.
  - destruct (Shape_move_assign_inv _ _ _ _ Hc) as (p & old & Hs & Hthis).
    destruct (decide (this = s)) as [->|Hne].
    + rewrite (Shape_move_assign_self _ _ _ Hs) in Hc. injection Hc as <-.
      cbn [specials with_objects]. by rewrite app_nil_r.
    + rewrite (Shape_move_assign_eq _ _ _ _ _ Hne Hs Hthis (wf_old _ _ _ Hwf Hthis)) in Hc.
      injection Hc as <-. cbn [specials]. by rewrite app_nil_r.
  - apply draw_Done in Hc as (l & m & _ & ->). cbn [specials with_cout].
    by rewrite app_nil_r.
  - destruct (Shape_dtor_inv _ _ _ Hc) as (p & Hthis).
    rewrite (Shape_dtor_eq _ _ _ Hthis (wf_old _ _ _ Hwf Hthis)) in Hc.
    injection Hc as <-. cbn [specials]. by rewrite app_nil_r.
Qed.

(** X14. No operation of [Shape] ever move-constructs a held value: in a
    run from program start the held types' copy constructor runs once for
    each construction from a value, each copy construction and each copy
    assignment, and their move constructor never runs, so
    [ShapeModel(T&&)] is never selected. *)
Theorem held_values_are_only_copied (cs : list call) (σ : state) :
  run cs start = Done tt σ →
  specials σ = repeat copy_constructed (sum_list (copies <$> cs)) ∧
  move_constructed ∉ specials σ.
Proof.
  intros Hrun.
  assert (Hgen : ∀ cs σ0 σ1, wf σ0 → run cs σ0 = Done tt σ1 →
    specials σ1 = app (specials σ0) (repeat copy_constructed (sum_list (copies <$> cs)))).
  { clear. induction cs as [|c cs IH]; intros σ0 σ1 Hwf Hrun.
    - injection Hrun as <-. cbn. by rewrite app_nil_r.
    - apply run_cons in Hrun as (σ' & Hc & Hrun).
      rewrite (IH σ' σ1 (exec_wf _ _ _ Hwf Hc) Hrun), (exec_specials c σ0 σ' Hwf Hc).
      rewrite fmap_cons. cbn [sum_list sum_list_with].
      by rewrite repeat_app, app_assoc. }
  assert (Heq := Hgen cs start σ wf_start Hrun). cbn [start specials app] in Heq.
  split; [done|]. rewrite Heq. intros Hin. apply list_elem_of_In, repeat_spec in Hin.
  discriminate.
Qed.

(** The Shapes of [main] up to the assignment, then destroyed: four copies
    of held values, no move. *)
Lemma held_values_are_only_copied_witness :
  run lifetimes start = Done tt (after lifetimes) ∧
  specials (after lifetimes) = repeat copy_constructed (sum_list (copies <$> lifetimes)) ∧
  move_constructed ∉ specials (after lifetimes).
Proof.
  assert (H1 : run lifetimes start = Done tt (after lifetimes)) by reflexivity.
  split; [exact H1|].
  exact (held_values_are_only_copied lifetimes (after lifetimes) H1).
Defined.

(** ** The program as a whole *)

(** X15. [main] runs to completion, whatever text the library prints for a
    [double] and however the vector grows: no null [pimpl] is dereferenced,
    the nine lines come out in the order of the source, with [Square] printed
    for the reassigned circle Shape and [Circle] for its earlier copy, and
    when [main] returns no Shape and no holder is left. *)
Theorem main_runs_to_completion `{NumPut} `{Growth} :
  (λ σ, (cout σ, objects σ, heap σ)) <$> final (main start) =
  Some ("Circle: " ++ put_double 230 ++ newline ++
        "copy ctor" ++ newline ++ "copy assign" ++ newline ++
        "Square: " ++ put_double 230 ++ newline ++
        "Square: " ++ put_double 230 ++ newline ++
        "Circle: " ++ put_double 230 ++ newline ++
        "Circle: " ++ put_double 2 ++ newline ++
        "Square: " ++ put_double 2 ++ newline ++
        "Δ" ++ newline, ∅, ∅).
Proof.
  transitivity (Some
    (drawShape Triangle_ctor (drawShape (Square_ctor 2) (drawShape (Circle_ctor 2)
       (drawShape (Circle_ctor 230) (drawShape (Square_ctor 230) (drawShape (Square_ctor 230)
          (endl (put_string (endl (put_string (drawShape (Circle_ctor 230) "")
             "copy ctor")) "copy assign"))))))),
     (∅ : gmap positive Shape), (∅ : gmap positive ShapeConcept))).
  - vm_compute.
    destruct (H0 0) as [|[|[|?]]]; destruct (H0 1) as [|[|[|?]]]; reflexivity.
  - do 3 f_equal.
    unfold drawShape, drawShape_Triangle, drawShape_Square, drawShape_Circle, endl, put_string.
    cbn [getRadius getSide]. rewrite !append_assoc. reflexivity.
Qed.
